(** * weakcache: a reference-counting cache with grace period and absolute expiry

    A shallow embedding of [cache.go] (package [weakcache]) and the
    properties of its record life cycle.

    Conventions of the embedding:
    - Go's [int64] values ([minTTL], [expires], [lastUnref], clock readings in
      nanoseconds) are integers of [Z]; the one addition the code performs on
      them wraps around as Go's signed addition does ([int64_add]).
    - Go's [uint] reference counter is an integer of [Z] in [0, 2^64);
      [refs++] and [refs--] wrap around ([uint_incr], [uint_decr]).
    - [recordMap] (a Go [map[uint64]Record]) is a [gmap Z CacheRecord].
    - every method runs under the cache's mutex, so each one is a single
      atomic transition of the cache; the value [time.Now()] it reads is an
      argument [now] (its [UnixNano()]).
    - the producer passed to [Fetch] is a thunk returning Go's pair
      [(value, err)]; the number of times it is run is reported next to the
      result of [fetch]. *)

From stdpp Require Import gmap strings list fin_maps.
From Stdlib Require Import ZArith Lia.

Local Open Scope Z_scope.

(** ** Machine integers *)

Module Int.

Definition modulus64 : Z := 2 ^ 64.
Definition int64_half : Z := 2 ^ 63.

(** The value in [-2^63, 2^63) congruent to [z] modulo [2^64]. *)
Definition wrap_int64 (z : Z) : Z :=
  (z + int64_half) mod modulus64 - int64_half.

Definition is_int64 (z : Z) : Prop := - int64_half <= z < int64_half.

(** Go's [a + b] on [int64]. *)
Definition int64_add (a b : Z) : Z := wrap_int64 (a + b).

Definition is_uint (z : Z) : Prop := 0 <= z < modulus64.

(** Go's [n++] and [n--] on [uint] (64 bits wide). *)
Definition uint_incr (n : Z) : Z := (n + 1) mod modulus64.
Definition uint_decr (n : Z) : Z := (n - 1) mod modulus64.

End Int.
Import Int.

(** ** The standard library's clock, as far as [cache.go] uses it *)

Module time.

(** [now.Add(d).UnixNano()], for a clock reading [now] given by its
    [UnixNano()]: the sum in nanoseconds, read back as an [int64]. *)
Definition Add_UnixNano (now d : Z) : Z := wrap_int64 (now + d).

End time.

(** ** Channels and panics *)

(** A [chan struct{}] nobody sends on: all that matters is whether it has
    been closed. *)
Inductive chan : Type := Open | Closed.

(** A call either returns or panics. *)
Inductive outcome (A : Type) : Type :=
| Returns (a : A)
| Panics (msg : string).
Arguments Returns {A} a.
Arguments Panics {A} msg.

(** Go's builtin [close]: closing a closed channel is a run-time panic. *)
Definition close (ch : chan) : outcome chan :=
  match ch with
  | Open => Returns Closed
  | Closed => Panics "close of closed channel"
  end.

(** ** Fixtures for the concrete runs below *)

(** A stand-in for [maphash] at the concrete runs: any function of the seed
    and the key will do, the cache only needs it to be deterministic. *)
Definition length_hash (seed : Z) (key : string) : Z :=
  seed + Z.of_nat (String.length key).

(** Producers as in [cache_test.go]: one that succeeds with a value, one that
    fails. *)
Definition produce_value (v : string) : unit -> string * option string :=
  fun _ => (v, None).

Definition produce_error (e : string) : unit -> string * option string :=
  fun _ => (EmptyString, Some e).

(** ** The cache *)

Section weakcache.

(** [V] stands for the [interface{}] values held by the cache and [E] for
    the values of Go's [error] interface. *)
Context {V E : Type}.

(** [maphash]: the string hash of a seed, [h.SetSeed(seed);
    h.WriteString(key); h.Sum64()]. *)
Variable Sum64 : Z -> string -> Z.

Set Default Proof Using "Type".

(** [type Record struct] ([Record] being a keyword, the type is called
    [CacheRecord] here). *)
Record CacheRecord : Type := mkRecord {
  Value : V;
  minTTL : Z;
  expires : Z;
  refs : Z;
  lastUnref : Z
}.

(** [func (r Record) isExpired(now int64) bool]. *)
Definition isExpired (r : CacheRecord) (now : Z) : bool :=
  if (0 <? lastUnref r) && (int64_add (lastUnref r) (minTTL r) <? now) then true
  else if (0 <? expires r) && (expires r <? now) then true
  else false.

(** [rec.refs = n] and [rec.lastUnref = t] on a copy of the record. *)
Definition with_refs (n : Z) (r : CacheRecord) : CacheRecord :=
  mkRecord (Value r) (minTTL r) (expires r) n (lastUnref r).

Definition with_lastUnref (t : Z) (r : CacheRecord) : CacheRecord :=
  mkRecord (Value r) (minTTL r) (expires r) (refs r) t.

(** [type fetch func() (interface{}, error)]; [None] is the [nil] error. *)
Definition fetchFn : Type := unit -> V * option E.

(** [type Cache struct]. The mutex is left out: every operation below is
    one critical section. *)
Record Cache : Type := mkCache {
  gcInterval : Z;
  reachable : gmap Z CacheRecord;
  unreachable : gmap Z CacheRecord;
  seed : Z;
  quit : chan
}.

Definition with_reachable (m : gmap Z CacheRecord) (c : Cache) : Cache :=
  mkCache (gcInterval c) m (unreachable c) (seed c) (quit c).

Definition with_unreachable (m : gmap Z CacheRecord) (c : Cache) : Cache :=
  mkCache (gcInterval c) (reachable c) m (seed c) (quit c).

Definition with_quit (ch : chan) (c : Cache) : Cache :=
  mkCache (gcInterval c) (reachable c) (unreachable c) (seed c) ch.

(** [func New(gcInterval time.Duration) *Cache]; [s] is the seed drawn by
    [maphash.MakeSeed()]. *)
Definition New (interval s : Z) : Cache := mkCache interval ∅ ∅ s Open.

(** [func (c *Cache) Len() int]. *)
Definition Len (c : Cache) : nat := (size (reachable c) + size (unreachable c))%nat.

(** [func (c *Cache) Close()]. *)
Definition Close (c : Cache) : outcome Cache :=
  match close (quit c) with
  | Returns ch => Returns (with_quit ch c)
  | Panics msg => Panics msg
  end.

(** [func (c *Cache) index(key string) uint64]. *)
Definition index (c : Cache) (key : string) : Z := Sum64 (seed c) key.

(** The body of the ticker case of [gcLoop]: range over the unreachable
    map, deleting the expired entries from it. *)
Definition sweep (nowNano : Z) (m : gmap Z CacheRecord) : gmap Z CacheRecord :=
  map_fold (fun index rec acc => if isExpired rec nowNano then delete index acc else acc) m m.

(** The same loop, visiting the entries in a given order: Go does not fix
    the order in which [range] goes through a map. *)
Definition sweep_in_order (nowNano : Z) (entries : list (Z * CacheRecord))
    (m : gmap Z CacheRecord) : gmap Z CacheRecord :=
  foldr (fun entry acc => if isExpired entry.2 nowNano then delete entry.1 acc else acc)
        m entries.

Definition gcTick (nowNano : Z) (c : Cache) : Cache :=
  with_unreachable (sweep nowNano (unreachable c)) c.

(** One turn of the [for { select { ... } }] of [gcLoop]: the case the
    [select] took, and [None] when the loop returns. *)
Inductive selected : Type :=
| case_quit
| case_ticker (nowNano : Z).

(** The quit case can only be taken on a closed channel (nothing is ever
    sent on it); the ticker case whenever a tick is pending. *)
Definition ready (c : Cache) (s : selected) : Prop :=
  match s with
  | case_quit => quit c = Closed
  | case_ticker _ => True
  end.

Definition gcLoop_turn (s : selected) (c : Cache) : option Cache :=
  match s with
  | case_quit => None
  | case_ticker nowNano => Some (gcTick nowNano c)
  end.

(** The closure [get] inside [fetch]: the record found for [index], if it
    is still good, and the cache after the deletions it performs. *)
Definition get (index now : Z) (c : Cache) : option CacheRecord * Cache :=
  match unreachable c !! index with
  | Some rec =>
      let c' := with_unreachable (delete index (unreachable c)) c in
      if isExpired rec now then (None, c') else (Some rec, c')
  | None =>
      match reachable c !! index with
      | Some rec =>
          if isExpired rec now
          then (None, with_reachable (delete index (reachable c)) c)
          else (Some rec, c)
      | None => (None, c)
      end
  end.

(** What a call of [fetch] gives back: Go's pair [(rec, err)], how many
    times the producer ran, and the cache it leaves. *)
Record Fetched : Type := mkFetched {
  ret : option CacheRecord;
  err : option E;
  calls : nat;
  after : Cache
}.

(** The common end of [fetch]: [rec.refs++], store a copy of the record in
    the reachable map, return the record and a [nil] error. *)
Definition publish (index : Z) (rec : CacheRecord) (n : nat) (c : Cache) : Fetched :=
  let rec' := with_refs (uint_incr (refs rec)) rec in
  mkFetched (Some rec') None n (with_reachable (<[index := rec']> (reachable c)) c).

(** [func (c *Cache) fetch(index uint64, minTTL, maxTTL time.Duration,
    fetch fetch)], returning a [*Record] and an [error]. *)
Definition fetch (index minTTL maxTTL : Z) (f : fetchFn) (now : Z) (c : Cache) : Fetched :=
  match get index now c with
  | (Some rec, c1) => publish index rec 0 c1
  | (None, c1) =>
      match f tt with
      | (_, Some e) => mkFetched None (Some e) 1 c1
      | (value, None) =>
          let rec := mkRecord value minTTL
                       (if 0 <? maxTTL then time.Add_UnixNano now maxTTL else 0) 0 0 in
          publish index rec 1 c1
      end
  end.

(** [func (c *Cache) Fetch(key string, minTTL, maxTTL time.Duration,
    fetch fetch)], returning a [*Record] and an [error]. On success a finalizer is set on the
    returned pointer; when it runs it starts [unref] on the same index,
    which is all the model keeps of it ([finalizer]). *)
Record Handle : Type := mkHandle {
  record : CacheRecord;
  finalizer : Z
}.

Record Fetch_result : Type := mkFetch_result {
  handle : option Handle;
  error : option E;
  producer_calls : nat;
  cache_after : Cache
}.

Definition Fetch (key : string) (minTTL maxTTL : Z) (f : fetchFn) (now : Z) (c : Cache)
  : Fetch_result :=
  let idx := index c key in
  let out := fetch idx minTTL maxTTL f now c in
  match err out, ret out with
  | Some e, _ => mkFetch_result None (Some e) (calls out) (after out)
  | None, Some rec => mkFetch_result (Some (mkHandle rec idx)) None (calls out) (after out)
  | None, None => mkFetch_result None None (calls out) (after out)
  end.

(** [func (c *Cache) unref(index uint64)]. *)
Definition unref (index now : Z) (c : Cache) : Cache :=
  match reachable c !! index with
  | None => c
  | Some rec =>
      let rec' := with_refs (uint_decr (refs rec)) rec in
      if 0 <? refs rec'
      then with_reachable (<[index := rec']> (reachable c)) c
      else
        with_unreachable (<[index := with_lastUnref now rec']> (unreachable c))
          (with_reachable (delete index (reachable c)) c)
  end.

(** ** Runs of the cache

    The operations other goroutines perform on a cache, each with the clock
    reading it takes, and the state a sequence of them leaves. *)
Inductive op : Type :=
| OpFetch (key : string) (minTTL maxTTL : Z) (f : fetchFn) (now : Z)
| OpUnref (index now : Z)
| OpTick (now : Z).

Definition step (c : Cache) (o : op) : Cache :=
  match o with
  | OpFetch key minTTL maxTTL f now => cache_after (Fetch key minTTL maxTTL f now c)
  | OpUnref index now => unref index now c
  | OpTick now => gcTick now c
  end.

Definition run (ops : list op) (c : Cache) : Cache := fold_left step ops c.

Definition clock_of (o : op) : Z :=
  match o with
  | OpFetch _ _ _ _ now => now
  | OpUnref _ now => now
  | OpTick now => now
  end.

Definition is_fetch (o : op) : bool :=
  match o with OpFetch _ _ _ _ _ => true | _ => false end.

(** The number of [Fetch] calls of a run. *)
Definition fetches (ops : list op) : Z :=
  fold_right (fun o n => if is_fetch o then n + 1 else n) 0 ops.

(** ** Properties of records and states *)

(** The two clauses of [isExpired], as propositions. *)
Definition grace_elapsed (r : CacheRecord) (now : Z) : Prop :=
  0 < lastUnref r /\ int64_add (lastUnref r) (minTTL r) < now.

Definition age_exceeded (r : CacheRecord) (now : Z) : Prop :=
  0 < expires r /\ expires r < now.

(** No index is a key of both maps. *)
Definition disjoint_maps (c : Cache) : Prop :=
  forall i, is_Some (reachable c !! i) -> unreachable c !! i = None.

(** Every record of the reachable map is referenced. *)
Definition reachable_referenced (c : Cache) : Prop :=
  forall i r, reachable c !! i = Some r -> 1 <= refs r.

(** Every record of the unreachable map has no reference and carries the
    time of its last release. *)
Definition unreachable_released (c : Cache) : Prop :=
  forall i r, unreachable c !! i = Some r -> refs r = 0 /\ 0 < lastUnref r.

(** No reference count of the reachable map is above [n]. *)
Definition refs_at_most (n : Z) (c : Cache) : Prop :=
  forall i r, reachable c !! i = Some r -> refs r <= n.

(** The clock readings of a run are times after the Unix epoch. *)
Definition clock_after_epoch (ops : list op) : Prop :=
  Forall (fun o => 0 < clock_of o) ops.

(** What the sweep leaves of one entry. *)
Definition survives (nowNano : Z) (o : option CacheRecord) : option CacheRecord :=
  match o with
  | Some r => if isExpired r nowNano then None else Some r
  | None => None
  end.

(** The three ways [fetch] ends. *)
Inductive fetch_ends (idx minTTL maxTTL : Z) (f : fetchFn) (now : Z) (c : Cache)
  : Fetched -> Prop :=
| fetch_hit r :
    (get idx now c).1 = Some r ->
    fetch_ends idx minTTL maxTTL f now c (publish idx r 0 (get idx now c).2)
| fetch_failed v e :
    (get idx now c).1 = None -> f tt = (v, Some e) ->
    fetch_ends idx minTTL maxTTL f now c (mkFetched None (Some e) 1 (get idx now c).2)
| fetch_produced v :
    (get idx now c).1 = None -> f tt = (v, None) ->
    fetch_ends idx minTTL maxTTL f now c
      (publish idx
         (mkRecord v minTTL (if 0 <? maxTTL then time.Add_UnixNano now maxTTL else 0) 0 0)
         1 (get idx now c).2).

(** The reference counts of a state that has seen at most [n] calls of
    [Fetch]. *)
Definition counted (n : Z) (c : Cache) : Prop :=
  reachable_referenced c /\ unreachable_released c /\ refs_at_most n c.

(** The finalizers of several handles of one index run one after the
    other: [unref] on [index], once per clock reading of [ts]. *)
Definition unrefs (index : Z) (ts : list Z) (c : Cache) : Cache :=
  fold_left (fun c' t => unref index t c') ts c.

(** [func (c *Cache) gcLoop()], along the cases its [select] takes: the
    loop goes on after a tick and returns at the quit case (and, here, when
    the list of cases ends). *)
Fixpoint gcLoop (cases : list selected) (c : Cache) : Cache :=
  match cases with
  | [] => c
  | s :: rest =>
      match gcLoop_turn s c with
      | None => c
      | Some c' => gcLoop rest c'
      end
  end.

(** The record a miss creates, as [fetch] stores and returns it. *)
Definition fresh (v : V) (minTTL maxTTL now : Z) : CacheRecord :=
  mkRecord v minTTL (if 0 <? maxTTL then time.Add_UnixNano now maxTTL else 0) 1 0.

(** The index holds a record that is good at [now]: [get] looks in the
    unreachable map first. *)
Definition holds_good (idx now : Z) (c : Cache) (r : CacheRecord) : Prop :=
  (unreachable c !! idx = Some r \/
   (unreachable c !! idx = None /\ reachable c !! idx = Some r)) /\
  isExpired r now = false.

(** Two records that differ at most in their reference count. *)
Definition same_entry (r h : CacheRecord) : Prop :=
  Value r = Value h /\ minTTL r = minTTL h /\
  expires r = expires h /\ lastUnref r = lastUnref h.

(** The record [h] of a handle is in place at [idx]: the reachable map has
    it there, up to its reference count, and the unreachable map has
    nothing there. *)
Definition in_place (idx : Z) (h : CacheRecord) (c : Cache) : Prop :=
  unreachable c !! idx = None /\
  exists r, reachable c !! idx = Some r /\ same_entry r h /\ 0 <= refs r < modulus64.

(** The operations that run while a handle of the index [idx] is held and
    its record stays the one of the handle: ticks of the sweep, [Fetch] and
    [unref] on other indices, calls of [Fetch] on [idx] that do not run
    their producer (so none that finds the record expired and drops or
    replaces it), and calls of [unref] on [idx] that find at least two
    references (the finalizers of other handles, the held one still being
    counted). *)
Fixpoint held (idx : Z) (ops : list op) (c : Cache) : Prop :=
  match ops with
  | [] => True
  | o :: rest =>
      match o with
      | OpFetch key minTTL maxTTL f now =>
          index c key = idx ->
          producer_calls (Fetch key minTTL maxTTL f now c) = 0%nat
      | OpUnref i _ =>
          i = idx -> exists r, reachable c !! idx = Some r /\ 2 <= refs r
      | OpTick _ => True
      end /\ held idx rest (step c o)
  end.

(** ** Machine arithmetic *)

Lemma wrap_int64_small (z : Z) : is_int64 z -> wrap_int64 z = z.
Proof.
  unfold is_int64, wrap_int64, int64_half, modulus64. intros Hz.
  rewrite Z.mod_small; lia.
Qed.

Lemma int64_add_exact (a b : Z) : is_int64 (a + b) -> int64_add a b = a + b.
Proof. apply wrap_int64_small. Qed.

Lemma uint_incr_exact (n : Z) : 0 <= n < modulus64 - 1 -> uint_incr n = n + 1.
Proof. unfold uint_incr, modulus64. intros Hn. apply Z.mod_small. lia. Qed.

Lemma uint_decr_exact (n : Z) : 1 <= n < modulus64 -> uint_decr n = n - 1.
Proof. unfold uint_decr, modulus64. intros Hn. apply Z.mod_small. lia. Qed.

Lemma uint_incr_range (n : Z) : is_uint (uint_incr n).
Proof. unfold is_uint, uint_incr, modulus64. apply Z.mod_pos_bound. lia. Qed.

Lemma uint_decr_range (n : Z) : is_uint (uint_decr n).
Proof. unfold is_uint, uint_decr, modulus64. apply Z.mod_pos_bound. lia. Qed.

(** ** The expiry predicate *)

Lemma isExpired_true (r : CacheRecord) (now : Z) :
  isExpired r now = true <-> grace_elapsed r now \/ age_exceeded r now.
Proof.
  unfold isExpired, grace_elapsed, age_exceeded.
  destruct (0 <? lastUnref r) eqn:Hl;
    destruct (int64_add (lastUnref r) (minTTL r) <? now) eqn:Hs;
    destruct (0 <? expires r) eqn:He;
    destruct (expires r <? now) eqn:Hn; simpl;
    rewrite ?Z.ltb_lt, ?Z.ltb_ge in *;
    split; intros H; try reflexivity; try discriminate; try lia; auto.
Qed.

Lemma isExpired_false (r : CacheRecord) (now : Z) :
  isExpired r now = false <-> ~ grace_elapsed r now /\ ~ age_exceeded r now.
Proof.
  rewrite <- not_true_iff_false, isExpired_true. split.
  - intros H. split; intros H'; apply H; auto.
  - intros [Hg Ha] [H | H]; auto.
Qed.

(** The expiry predicate, clause by clause. [isExpired r now] is true
    exactly when the record has a
    last-unreferenced stamp (a positive [lastUnref]) with
    [lastUnref + minTTL < now], or a set expiry (a positive [expires]) with
    [expires < now]. The sum is the [int64] sum of the code, which is the
    integer sum whenever that fits 64 bits. A record with neither field set
    never expires, and both comparisons are strict: at [now] equal to the
    deadline the clause does not fire. *)
Theorem isExpired_spec (r : CacheRecord) (now : Z) :
  (isExpired r now = true <->
     (0 < lastUnref r /\ int64_add (lastUnref r) (minTTL r) < now) \/
     (0 < expires r /\ expires r < now)) /\
  (is_int64 (lastUnref r + minTTL r) ->
     (isExpired r now = true <->
        (0 < lastUnref r /\ lastUnref r + minTTL r < now) \/
        (0 < expires r /\ expires r < now))) /\
  (lastUnref r <= 0 -> expires r <= 0 -> isExpired r now = false) /\
  (lastUnref r <= 0 -> isExpired r (expires r) = false) /\
  (expires r <= 0 -> isExpired r (int64_add (lastUnref r) (minTTL r)) = false).
Proof.
  split; [exact (isExpired_true r now)|].
  split.
  { intros Hfit. rewrite isExpired_true. unfold grace_elapsed, age_exceeded.
    rewrite (int64_add_exact _ _ Hfit). reflexivity. }
  repeat split; intros; apply isExpired_false;
    unfold grace_elapsed, age_exceeded; lia.
Qed.

(** ** The sweep *)

(** The loop of the sweep, started on any accumulator [acc]: an entry of
    [acc] is dropped exactly when [m] holds an expired record for it. *)
Lemma sweep_fold_lookup (nowNano : Z) (m acc : gmap Z CacheRecord) (j : Z) :
  map_fold (fun index rec a => if isExpired rec nowNano then delete index a else a) acc m !! j
  = match m !! j with
    | Some r => if isExpired r nowNano then None else acc !! j
    | None => acc !! j
    end.
Proof.
  revert j.
  apply (map_fold_weak_ind
           (fun (a : gmap Z CacheRecord) (m' : gmap Z CacheRecord) =>
              forall j, a !! j = match m' !! j with
                                 | Some r => if isExpired r nowNano then None else acc !! j
                                 | None => acc !! j
                                 end)).
  - intros j. rewrite lookup_empty. reflexivity.
  - intros i x m' a Hi IH j. destruct (decide (i = j)) as [->|Hne].
    + rewrite lookup_insert_eq. specialize (IH j). rewrite Hi in IH.
      destruct (isExpired x nowNano).
      * apply lookup_delete_eq.
      * exact IH.
    + rewrite (lookup_insert_ne _ _ _ _ Hne). rewrite <- IH.
      destruct (isExpired x nowNano); [apply lookup_delete_ne; exact Hne | reflexivity].
Qed.

Lemma sweep_lookup (nowNano : Z) (m : gmap Z CacheRecord) (j : Z) :
  sweep nowNano m !! j = survives nowNano (m !! j).
Proof.
  unfold sweep, survives. rewrite sweep_fold_lookup.
  destruct (m !! j) as [r|]; reflexivity.
Qed.

Lemma sweep_lookup_Some (nowNano : Z) (m : gmap Z CacheRecord) (j : Z) (r : CacheRecord) :
  sweep nowNano m !! j = Some r <-> m !! j = Some r /\ isExpired r nowNano = false.
Proof.
  rewrite sweep_lookup. unfold survives. destruct (m !! j) as [r'|].
  - destruct (isExpired r' nowNano) eqn:Hx; split.
    + discriminate.
    + intros [[= ->] Hr]. congruence.
    + intros [= ->]. auto.
    + intros [[= ->] _]. reflexivity.
  - split; [discriminate | intros [? _]; discriminate].
Qed.

(** The order of the visit does not matter. *)
Lemma sweep_in_order_dropped nowNano entries (m : gmap Z CacheRecord) j r :
  (j, r) ∈ entries -> isExpired r nowNano = true ->
  sweep_in_order nowNano entries m !! j = None.
Proof.
  induction entries as [|[i x] entries IH]; intros Hin Hx; simpl.
  - apply elem_of_nil in Hin. contradiction.
  - apply elem_of_cons in Hin as [[= <- <-] | Hin].
    + rewrite Hx. apply lookup_delete_eq.
    + specialize (IH Hin Hx). destruct (isExpired x nowNano); [|exact IH].
      destruct (decide (i = j)) as [->|Hne]; [apply lookup_delete_eq|].
      rewrite lookup_delete_ne by exact Hne. exact IH.
Qed.

Lemma sweep_in_order_kept nowNano entries (m : gmap Z CacheRecord) j :
  (forall r, (j, r) ∈ entries -> isExpired r nowNano = false) ->
  sweep_in_order nowNano entries m !! j = m !! j.
Proof.
  induction entries as [|[i x] entries IH]; intros Hall; simpl; [reflexivity|].
  assert (IH' : sweep_in_order nowNano entries m !! j = m !! j).
  { apply IH. intros r Hr. apply Hall. apply elem_of_cons. right. exact Hr. }
  destruct (isExpired x nowNano) eqn:Hx; [|exact IH'].
  destruct (decide (i = j)) as [->|Hne].
  - rewrite (Hall x) in Hx; [discriminate|]. apply elem_of_cons. left. reflexivity.
  - rewrite lookup_delete_ne by exact Hne. exact IH'.
Qed.

Lemma sweep_any_order nowNano entries (m : gmap Z CacheRecord) :
  entries ≡ₚ map_to_list m ->
  sweep_in_order nowNano entries m = sweep nowNano m.
Proof.
  intros Hp. apply map_eq. intros j. rewrite sweep_lookup. unfold survives.
  assert (Hin : forall r, (j, r) ∈ entries <-> m !! j = Some r).
  { intros r. rewrite Hp. apply elem_of_map_to_list. }
  destruct (m !! j) as [r|] eqn:Hj.
  - destruct (isExpired r nowNano) eqn:Hx.
    + apply (sweep_in_order_dropped _ _ _ _ r); [apply Hin; reflexivity | exact Hx].
    + rewrite sweep_in_order_kept; [exact Hj|].
      intros r' Hr'. apply Hin in Hr'. injection Hr' as <-. exact Hx.
  - rewrite sweep_in_order_kept; [exact Hj|].
    intros r' Hr'. apply Hin in Hr'. discriminate.
Qed.

(** C9. A tick of the sweep loop at time [now] removes from the
    unreachable map exactly the records that are expired at [now], keeps
    every other record of it as it is, and leaves the reachable map (and
    the rest of the cache) unchanged, in whatever order the loop visits the
    entries. *)
Theorem gcTick_spec (now : Z) (c : Cache) :
  reachable (gcTick now c) = reachable c /\
  (forall i r, unreachable c !! i = Some r -> isExpired r now = true ->
               unreachable (gcTick now c) !! i = None) /\
  (forall i r, unreachable c !! i = Some r -> isExpired r now = false ->
               unreachable (gcTick now c) !! i = Some r) /\
  (forall i r, unreachable (gcTick now c) !! i = Some r ->
               unreachable c !! i = Some r /\ isExpired r now = false) /\
  (forall entries, entries ≡ₚ map_to_list (unreachable c) ->
                  sweep_in_order now entries (unreachable c) = unreachable (gcTick now c)) /\
  seed (gcTick now c) = seed c /\ quit (gcTick now c) = quit c /\
  gcLoop_turn (case_ticker now) c = Some (gcTick now c).
Proof.
  split; [reflexivity|].
  split; [|split; [|split; [|split]]]; simpl.
  - intros i r Hi Hx. rewrite sweep_lookup, Hi. simpl. rewrite Hx. reflexivity.
  - intros i r Hi Hx. apply sweep_lookup_Some. auto.
  - intros i r Hi. apply sweep_lookup_Some. exact Hi.
  - intros entries Hp. apply sweep_any_order, Hp.
  - auto.
Qed.

(** ** Fetch and unref, case by case *)

Lemma cache_after_Fetch key a b (f : fetchFn) now c :
  cache_after (Fetch key a b f now c) = after (fetch (index c key) a b f now c).
Proof. unfold Fetch. destruct (err _); [|destruct (ret _)]; reflexivity. Qed.

Lemma producer_calls_Fetch key a b (f : fetchFn) now c :
  producer_calls (Fetch key a b f now c) = calls (fetch (index c key) a b f now c).
Proof. unfold Fetch. destruct (err _); [|destruct (ret _)]; reflexivity. Qed.

Lemma error_Fetch key a b (f : fetchFn) now c :
  error (Fetch key a b f now c) = err (fetch (index c key) a b f now c).
Proof. unfold Fetch. destruct (err _); [|destruct (ret _)]; reflexivity. Qed.

(** The record [get] finds, and the cache it leaves, in the three
    situations of the index. *)
Lemma get_unreachable idx now c r :
  unreachable c !! idx = Some r ->
  get idx now c =
    (if isExpired r now then None else Some r,
     with_unreachable (delete idx (unreachable c)) c).
Proof. intros H. unfold get. rewrite H. destruct (isExpired r now); reflexivity. Qed.

Lemma get_reachable idx now c r :
  unreachable c !! idx = None -> reachable c !! idx = Some r ->
  get idx now c =
    if isExpired r now then (None, with_reachable (delete idx (reachable c)) c)
    else (Some r, c).
Proof. intros Hu Hr. unfold get. rewrite Hu, Hr. reflexivity. Qed.

Lemma get_absent idx now c :
  unreachable c !! idx = None -> reachable c !! idx = None ->
  get idx now c = (None, c).
Proof. intros Hu Hr. unfold get. rewrite Hu, Hr. reflexivity. Qed.

(** [get] only deletes, and only at its index; the record it returns is
    one of the two maps and is not expired. *)
Lemma get_frame idx now c :
  let c1 := (get idx now c).2 in
  gcInterval c1 = gcInterval c /\ seed c1 = seed c /\ quit c1 = quit c /\
  unreachable c1 = delete idx (unreachable c) /\
  (reachable c1 = reachable c \/ reachable c1 = delete idx (reachable c)).
Proof.
  unfold get. destruct (unreachable c !! idx) as [r|] eqn:Hu.
  - destruct (isExpired r now); simpl; auto 10.
  - destruct (reachable c !! idx) as [r|] eqn:Hr.
    + destruct (isExpired r now); simpl; rewrite (delete_id _ _ Hu); auto 10.
    + simpl. rewrite (delete_id _ _ Hu); auto 10.
Qed.

Lemma get_found idx now c r :
  (get idx now c).1 = Some r ->
  isExpired r now = false /\
  (unreachable c !! idx = Some r \/
   (unreachable c !! idx = None /\ reachable c !! idx = Some r /\
    (get idx now c).2 = c)).
Proof.
  unfold get. destruct (unreachable c !! idx) as [r'|] eqn:Hu.
  - destruct (isExpired r' now) eqn:Hx; simpl; [discriminate|].
    intros [= ->]. auto.
  - destruct (reachable c !! idx) as [r'|] eqn:Hr.
    + destruct (isExpired r' now) eqn:Hx; simpl; [discriminate|].
      intros [= ->]. auto.
    + simpl. discriminate.
Qed.

Lemma fetch_inv idx minTTL maxTTL (f : fetchFn) now c :
  fetch_ends idx minTTL maxTTL f now c (fetch idx minTTL maxTTL f now c).
Proof.
  unfold fetch. destruct (get idx now c) as [[r|] c1] eqn:Hg.
  - replace c1 with (get idx now c).2 by (rewrite Hg; reflexivity).
    apply fetch_hit. rewrite Hg. reflexivity.
  - replace c1 with (get idx now c).2 by (rewrite Hg; reflexivity).
    destruct (f tt) as [v [e|]] eqn:Hf.
    + eapply fetch_failed; [rewrite Hg; reflexivity | exact Hf].
    + eapply fetch_produced; [rewrite Hg; reflexivity | exact Hf].
Qed.

(** What [fetch] does to the two maps, whatever its outcome: the index
    leaves the unreachable map, and no other index is touched. *)
Lemma fetch_unreachable idx a b (f : fetchFn) now c :
  unreachable (after (fetch idx a b f now c)) = delete idx (unreachable c).
Proof.
  destruct (get_frame idx now c) as (_ & _ & _ & Hu & _).
  destruct (fetch_inv idx a b f now c); simpl; exact Hu.
Qed.

Lemma fetch_reachable_ne idx a b (f : fetchFn) now c j :
  idx <> j ->
  reachable (after (fetch idx a b f now c)) !! j = reachable c !! j.
Proof.
  intros Hne.
  assert (Hc1 : reachable (get idx now c).2 !! j = reachable c !! j).
  { destruct (get_frame idx now c) as (_ & _ & _ & _ & [-> | ->]);
      [reflexivity | apply lookup_delete_ne; exact Hne]. }
  destruct (fetch_inv idx a b f now c); simpl;
    rewrite ?lookup_insert_ne by exact Hne; exact Hc1.
Qed.

Lemma fetch_fields idx a b (f : fetchFn) now c :
  gcInterval (after (fetch idx a b f now c)) = gcInterval c /\
  seed (after (fetch idx a b f now c)) = seed c /\
  quit (after (fetch idx a b f now c)) = quit c.
Proof.
  destruct (get_frame idx now c) as (Hg & Hs & Hq & _).
  destruct (fetch_inv idx a b f now c); simpl; auto.
Qed.

Lemma uint_incr_0 : uint_incr 0 = 1.
Proof. reflexivity. Qed.

(** *** The two maps stay disjoint *)

Lemma fetch_disjoint idx a b (f : fetchFn) now c :
  disjoint_maps c -> disjoint_maps (after (fetch idx a b f now c)).
Proof.
  intros Hd i Hi. rewrite fetch_unreachable.
  destruct (decide (idx = i)) as [->|Hne].
  - apply lookup_delete_eq.
  - rewrite lookup_delete_ne by exact Hne.
    rewrite fetch_reachable_ne in Hi by exact Hne. apply Hd, Hi.
Qed.

Lemma unref_disjoint idx now c :
  disjoint_maps c -> disjoint_maps (unref idx now c).
Proof.
  intros Hd. unfold unref. destruct (reachable c !! idx) as [r|] eqn:Hr; [|exact Hd].
  destruct (0 <? refs (with_refs (uint_decr (refs r)) r)); intros i; simpl.
  - destruct (decide (idx = i)) as [->|Hne].
    + intros _. apply Hd. rewrite Hr. eauto.
    + rewrite lookup_insert_ne by exact Hne. apply Hd.
  - destruct (decide (idx = i)) as [->|Hne].
    + rewrite lookup_delete_eq. intros [x Hx]. discriminate.
    + rewrite lookup_delete_ne, lookup_insert_ne by exact Hne. apply Hd.
Qed.

Lemma gcTick_disjoint now c :
  disjoint_maps c -> disjoint_maps (gcTick now c).
Proof.
  intros Hd i Hi. simpl in *. rewrite sweep_lookup, (Hd i Hi). reflexivity.
Qed.

Lemma step_disjoint c o : disjoint_maps c -> disjoint_maps (step c o).
Proof.
  destruct o as [key a b f now | idx now | now]; simpl.
  - rewrite cache_after_Fetch. apply fetch_disjoint.
  - apply unref_disjoint.
  - apply gcTick_disjoint.
Qed.

Lemma run_disjoint ops c : disjoint_maps c -> disjoint_maps (run ops c).
Proof.
  revert c. induction ops as [|o ops IH]; intros c Hd; simpl.
  - exact Hd.
  - apply IH, step_disjoint, Hd.
Qed.

Lemma New_disjoint interval s : disjoint_maps (New interval s).
Proof. intros i [x Hx]. simpl in Hx. rewrite lookup_empty in Hx. discriminate. Qed.

(** C5. In every state reached from a new cache by a sequence of [Fetch],
    [unref] and sweep-tick operations, no index is a key of both the
    reachable and the unreachable map: every index is missing from one of
    the two. *)
Theorem maps_disjoint (interval s : Z) (ops : list op) (i : Z) :
  reachable (run ops (New interval s)) !! i = None \/
  unreachable (run ops (New interval s)) !! i = None.
Proof.
  pose proof (run_disjoint ops _ (New_disjoint interval s) i) as Hd.
  destruct (reachable (run ops (New interval s)) !! i) as [r|].
  - right. apply Hd. eauto.
  - left. reflexivity.
Qed.

(** *** Reference counts *)

Lemma counted_mono n m c : n <= m -> counted n c -> counted m c.
Proof.
  intros Hnm (Hr & Hu & Hb). split; [exact Hr | split; [exact Hu|]].
  intros i r Hi. specialize (Hb i r Hi). lia.
Qed.

Lemma New_counted interval s : counted 0 (New interval s).
Proof.
  split; [|split]; intros i r Hi; simpl in Hi; rewrite lookup_empty in Hi; discriminate.
Qed.

(** The record a hit republishes has between 1 and [n + 1] references. *)
Lemma hit_refs n idx now c r :
  counted n c -> 0 <= n -> n + 1 < modulus64 ->
  (get idx now c).1 = Some r ->
  1 <= uint_incr (refs r) <= n + 1.
Proof.
  intros (Hr & Hu & Hb) Hn Hmax Hg.
  destruct (get_found idx now c r Hg) as (_ & [Hin | (_ & Hin & _)]).
  - destruct (Hu idx r Hin) as [-> _]. rewrite uint_incr_0. lia.
  - specialize (Hr idx r Hin). specialize (Hb idx r Hin).
    rewrite uint_incr_exact by lia. lia.
Qed.

Lemma fetch_counted n idx a b (f : fetchFn) now c :
  counted n c -> 0 <= n -> n + 1 < modulus64 ->
  counted (n + 1) (after (fetch idx a b f now c)).
Proof.
  intros Hc Hn Hmax. pose proof Hc as (Hr & Hu & Hb).
  assert (Hat : forall r, reachable (after (fetch idx a b f now c)) !! idx = Some r ->
                          1 <= refs r <= n + 1).
  { destruct (fetch_inv idx a b f now c) as [r0 Hg | v e Hg Hf | v Hg Hf]; simpl; intros r.
    - rewrite lookup_insert_eq. intros [= <-]. simpl. eapply hit_refs; eauto.
    - destruct (get_frame idx now c) as (_ & _ & _ & _ & [-> | ->]).
      + intros Hi. specialize (Hr idx r Hi). specialize (Hb idx r Hi). lia.
      + rewrite lookup_delete_eq. discriminate.
    - rewrite lookup_insert_eq. intros [= <-]. simpl. rewrite uint_incr_0. lia. }
  split; [|split].
  - intros i r Hi. destruct (decide (idx = i)) as [<-|Hne].
    + apply (Hat r Hi).
    + rewrite fetch_reachable_ne in Hi by exact Hne. apply (Hr i r Hi).
  - intros i r Hi. rewrite fetch_unreachable in Hi.
    apply lookup_delete_Some in Hi as [_ Hi]. apply (Hu i r Hi).
  - intros i r Hi. destruct (decide (idx = i)) as [<-|Hne].
    + apply (Hat r Hi).
    + rewrite fetch_reachable_ne in Hi by exact Hne. specialize (Hb i r Hi). lia.
Qed.

Lemma unref_counted n idx now c :
  counted n c -> n < modulus64 -> 0 < now ->
  counted n (unref idx now c).
Proof.
  intros Hc Hmax Hnow. pose proof Hc as (Hr & Hu & Hb).
  unfold unref. destruct (reachable c !! idx) as [r|] eqn:Hi; [|exact Hc].
  pose proof (Hr idx r Hi) as Hlo. pose proof (Hb idx r Hi) as Hhi.
  simpl. rewrite uint_decr_exact by lia.
  destruct (0 <? refs r - 1) eqn:Hpos.
  - apply Z.ltb_lt in Hpos. split; [|split]; intros i r' Hi'; simpl in Hi'.
    + destruct (decide (idx = i)) as [<-|Hne].
      * rewrite lookup_insert_eq in Hi'. injection Hi' as <-. simpl. lia.
      * rewrite lookup_insert_ne in Hi' by exact Hne. apply (Hr i r' Hi').
    + apply (Hu i r' Hi').
    + destruct (decide (idx = i)) as [<-|Hne].
      * rewrite lookup_insert_eq in Hi'. injection Hi' as <-. simpl. lia.
      * rewrite lookup_insert_ne in Hi' by exact Hne. apply (Hb i r' Hi').
  - apply Z.ltb_ge in Hpos. split; [|split]; intros i r' Hi'; simpl in Hi'.
    + apply lookup_delete_Some in Hi' as [_ Hi']. apply (Hr i r' Hi').
    + destruct (decide (idx = i)) as [<-|Hne].
      * rewrite lookup_insert_eq in Hi'. injection Hi' as <-. simpl. lia.
      * rewrite lookup_insert_ne in Hi' by exact Hne. apply (Hu i r' Hi').
    + apply lookup_delete_Some in Hi' as [_ Hi']. apply (Hb i r' Hi').
Qed.

Lemma gcTick_counted n now c : counted n c -> counted n (gcTick now c).
Proof.
  intros (Hr & Hu & Hb). split; [exact Hr | split; [|exact Hb]].
  intros i r Hi. simpl in Hi. apply sweep_lookup_Some in Hi as [Hi _]. apply (Hu i r Hi).
Qed.

Lemma fetches_nonneg ops : 0 <= fetches ops.
Proof.
  induction ops as [|o ops IH]; simpl; [lia|]. destruct (is_fetch o); lia.
Qed.

Lemma run_counted ops : forall n c,
  counted n c -> 0 <= n -> clock_after_epoch ops ->
  n + fetches ops < modulus64 ->
  counted (n + fetches ops) (run ops c).
Proof.
  induction ops as [|o ops IH]; intros n c Hc Hn Hclk Hmax; simpl in *.
  - rewrite Z.add_0_r. exact Hc.
  - apply Forall_cons in Hclk as [Hnow Hclk].
    pose proof (fetches_nonneg ops) as Hf.
    destruct o as [key a b f now | idx now | now]; simpl in *.
    + replace (n + (fetches ops + 1)) with ((n + 1) + fetches ops) by lia.
      apply IH; [|lia|exact Hclk|lia].
      rewrite cache_after_Fetch. apply fetch_counted; [exact Hc|lia|lia].
    + apply IH; [|lia|exact Hclk|lia]. apply unref_counted; [exact Hc|lia|exact Hnow].
    + apply IH; [|lia|exact Hclk|lia]. apply gcTick_counted, Hc.
Qed.

(** C6. In every state reached from a new cache by a sequence of [Fetch],
    [unref] and sweep-tick operations, every record of the reachable map
    has a reference count of at least 1, and every record of the
    unreachable map has reference count 0 and a set (positive)
    [lastUnref]. The clock readings are times after the Unix epoch, and
    the run has fewer than [2^64] calls of [Fetch], so that the [uint]
    counter cannot wrap around. *)
Theorem refcount_invariant (interval s : Z) (ops : list op) :
  clock_after_epoch ops ->
  fetches ops < modulus64 ->
  (forall i r, reachable (run ops (New interval s)) !! i = Some r -> 1 <= refs r) /\
  (forall i r, unreachable (run ops (New interval s)) !! i = Some r ->
               refs r = 0 /\ 0 < lastUnref r).
Proof.
  intros Hclk Hmax.
  destruct (run_counted ops 0 (New interval s) (New_counted interval s)) as (Hr & Hu & _);
    [lia | exact Hclk | lia |].
  split; [exact Hr | exact Hu].
Qed.

(** ** Hits *)

Lemma fetch_hit_eq idx a b (f : fetchFn) now c r :
  (get idx now c).1 = Some r ->
  fetch idx a b f now c = publish idx r 0 (get idx now c).2.
Proof.
  intros Hg. unfold fetch. destruct (get idx now c) as [[r'|] c1]; simpl in *.
  - injection Hg as ->. reflexivity.
  - discriminate.
Qed.

Lemma Fetch_of_publish key a b (f : fetchFn) now c r n c1 :
  fetch (index c key) a b f now c = publish (index c key) r n c1 ->
  Fetch key a b f now c =
    mkFetch_result
      (Some (mkHandle (with_refs (uint_incr (refs r)) r) (index c key))) None n
      (with_reachable (<[index c key := with_refs (uint_incr (refs r)) r]> (reachable c1)) c1).
Proof. intros H. unfold Fetch. rewrite H. reflexivity. Qed.

(** The record found by [get] when the index holds a record that is good
    at [now], in either map. *)
Lemma get_hit idx now c r :
  unreachable c !! idx = Some r \/
  (unreachable c !! idx = None /\ reachable c !! idx = Some r) ->
  isExpired r now = false ->
  (get idx now c).1 = Some r.
Proof.
  intros [Hu | [Hu Hr]] Hx.
  - rewrite (get_unreachable _ _ _ _ Hu), Hx. reflexivity.
  - rewrite (get_reachable _ _ _ _ Hu Hr), Hx. reflexivity.
Qed.

(** C10. When [Fetch] finds a record for the index of its key that is not
    expired, in either map, its [minTTL] and [maxTTL] arguments and its
    producer play no part: the record stored back in the reachable map (and
    returned) is the found one with its reference count incremented, so it
    keeps the [minTTL], [expires], [Value] and [lastUnref] it had; the
    increment is by 1 unless the [uint] counter is at its maximum. *)
Theorem Fetch_hit_keeps_record key a b (f : fetchFn) now c r :
  unreachable c !! index c key = Some r \/
  (unreachable c !! index c key = None /\ reachable c !! index c key = Some r) ->
  isExpired r now = false ->
  exists r',
    reachable (cache_after (Fetch key a b f now c)) !! index c key = Some r' /\
    handle (Fetch key a b f now c) = Some (mkHandle r' (index c key)) /\
    error (Fetch key a b f now c) = None /\
    producer_calls (Fetch key a b f now c) = 0%nat /\
    minTTL r' = minTTL r /\ expires r' = expires r /\
    Value r' = Value r /\ lastUnref r' = lastUnref r /\
    refs r' = uint_incr (refs r) /\
    (0 <= refs r < modulus64 - 1 -> refs r' = refs r + 1).
Proof.
  intros Hin Hx. exists (with_refs (uint_incr (refs r)) r).
  pose proof (get_hit _ _ _ _ Hin Hx) as Hg.
  rewrite (Fetch_of_publish _ _ _ _ _ _ _ _ _ (fetch_hit_eq _ a b f _ _ _ Hg)). simpl.
  rewrite lookup_insert_eq.
  repeat (split; [reflexivity|]). apply uint_incr_exact.
Qed.

(** After a successful [Fetch] the record of the returned handle is the
    one stored for the index in the reachable map, and the index has left
    the unreachable map. *)
Lemma Fetch_stores key a b (f : fetchFn) now c h :
  handle (Fetch key a b f now c) = Some h ->
  finalizer h = index c key /\
  reachable (cache_after (Fetch key a b f now c)) !! index c key = Some (record h) /\
  unreachable (cache_after (Fetch key a b f now c)) !! index c key = None /\
  index (cache_after (Fetch key a b f now c)) key = index c key.
Proof.
  intros Hh.
  assert (Hidx : index (cache_after (Fetch key a b f now c)) key = index c key).
  { unfold index at 1. rewrite cache_after_Fetch.
    destruct (fetch_fields (index c key) a b f now c) as (_ & -> & _). reflexivity. }
  assert (Hun : unreachable (cache_after (Fetch key a b f now c)) !! index c key = None).
  { rewrite cache_after_Fetch, fetch_unreachable. apply lookup_delete_eq. }
  split; [|split; [|split]]; try assumption.
  - unfold Fetch in Hh. destruct (err _); [discriminate|].
    destruct (ret _); [|discriminate]. simpl in Hh. injection Hh as <-. reflexivity.
  - revert Hh. unfold Fetch.
    destruct (fetch_inv (index c key) a b f now c) as [r0 Hg | v e Hg Hf | v Hg Hf]; simpl.
    + intros [= <-]. simpl. apply lookup_insert_eq.
    + discriminate.
    + intros [= <-]. simpl. apply lookup_insert_eq.
Qed.

(** A hit on the reachable map, in any state whose maps are disjoint. *)
Lemma Fetch_hit_stored key a b (f : fetchFn) now c r :
  disjoint_maps c ->
  reachable c !! index c key = Some r ->
  isExpired r now = false ->
  producer_calls (Fetch key a b f now c) = 0%nat /\
  error (Fetch key a b f now c) = None /\
  exists h, handle (Fetch key a b f now c) = Some h /\
            Value (record h) = Value r /\
            cache_after (Fetch key a b f now c) =
              with_reachable (<[index c key := record h]> (reachable c)) c.
Proof.
  intros Hd Hr Hx.
  assert (Hu : unreachable c !! index c key = None).
  { apply Hd. rewrite Hr. eauto. }
  assert (Hg : get (index c key) now c = (Some r, c)).
  { rewrite (get_reachable _ _ _ _ Hu Hr), Hx. reflexivity. }
  assert (Hf : fetch (index c key) a b f now c = publish (index c key) r 0 c).
  { rewrite (fetch_hit_eq _ a b f _ _ r); rewrite Hg; reflexivity. }
  rewrite (Fetch_of_publish _ _ _ _ _ _ _ _ _ Hf). simpl.
  split; [reflexivity|]. split; [reflexivity|]. eexists. split; [reflexivity|].
  split; reflexivity.
Qed.

(** Two calls in a row: the second one hits the record the first one
    returned, as long as that record is not expired. *)
Lemma Fetch_twice key a b (f : fetchFn) now c h a' b' (f' : fetchFn) now' :
  disjoint_maps c ->
  handle (Fetch key a b f now c) = Some h ->
  isExpired (record h) now' = false ->
  producer_calls (Fetch key a' b' f' now' (cache_after (Fetch key a b f now c))) = 0%nat /\
  exists h', handle (Fetch key a' b' f' now' (cache_after (Fetch key a b f now c))) = Some h' /\
             Value (record h') = Value (record h).
Proof.
  intros Hd Hh Hx.
  destruct (Fetch_stores _ _ _ _ _ _ _ Hh) as (_ & Hst & _ & Hidx).
  rewrite <- Hidx in Hst.
  destruct (Fetch_hit_stored key a' b' f' now' (cache_after (Fetch key a b f now c)) (record h))
    as (Hc & _ & h' & Hh' & Hv & _).
  - rewrite cache_after_Fetch. apply fetch_disjoint, Hd.
  - exact Hst.
  - exact Hx.
  - split; [exact Hc|]. exists h'. split; [exact Hh' | exact Hv].
Qed.

(** ** Misses *)

Lemma size_delete_present (m : gmap Z CacheRecord) i x :
  m !! i = Some x -> S (size (delete i m)) = size m.
Proof.
  intros Hi. rewrite <- (insert_delete_id m i x Hi) at 2.
  symmetry. apply map_size_insert_None, lookup_delete_eq.
Qed.

(** When [fetch] returns an error it is the one of the producer, which ran
    once, and the cache left is the one [get] left. *)
Lemma fetch_err idx a b (f : fetchFn) now c e :
  err (fetch idx a b f now c) = Some e ->
  (get idx now c).1 = None /\ (exists v, f tt = (v, Some e)) /\
  fetch idx a b f now c = mkFetched None (Some e) 1 (get idx now c).2.
Proof.
  destruct (fetch_inv idx a b f now c) as [r0 Hg | v e' Hg Hf | v Hg Hf]; simpl;
    try discriminate.
  intros [= ->]. eauto.
Qed.

(** A miss on a record held for the index: the record is expired, and [get]
    has deleted it. *)
Lemma get_miss_present idx now c r :
  (get idx now c).1 = None ->
  unreachable c !! idx = Some r \/
  (unreachable c !! idx = None /\ reachable c !! idx = Some r) ->
  isExpired r now = true /\
  S (Len (get idx now c).2) = Len c /\
  (unreachable c !! idx = None -> reachable (get idx now c).2 !! idx = None).
Proof.
  intros Hg [Hu | [Hu Hr]].
  - rewrite (get_unreachable _ _ _ _ Hu) in Hg |- *.
    destruct (isExpired r now); [|discriminate]. simpl.
    split; [reflexivity|]. split; [|congruence].
    unfold Len. simpl. rewrite <- (size_delete_present _ _ _ Hu). lia.
  - rewrite (get_reachable _ _ _ _ Hu Hr) in Hg |- *.
    destruct (isExpired r now); [|discriminate]. simpl.
    split; [reflexivity|]. split; [|intros _; apply lookup_delete_eq].
    unfold Len. simpl. rewrite <- (size_delete_present _ _ _ Hr). lia.
Qed.

(** C4, as the code has it. When the index of the key holds no record
    that is good at the time of the call, [Fetch] runs the producer, and
    when the producer then returns an error, [Fetch] returns that very
    error and no handle; the producer ran once; no record is created and no
    reference count changes: each map is left a part of what it was, and
    every index but the one looked up keeps its record. If the index held
    no record, the cache is left as it was, and so is [Len()]. If it held
    a record, that record was expired and has been removed, and [Len()] is
    one less. *)
Theorem Fetch_error_spec key a b (f : fetchFn) now c v e :
  f tt = (v, Some e) ->
  (~ exists r, holds_good (index c key) now c r) ->
  error (Fetch key a b f now c) = Some e /\
  handle (Fetch key a b f now c) = None /\
  producer_calls (Fetch key a b f now c) = 1%nat /\
  reachable (cache_after (Fetch key a b f now c)) ⊆ reachable c /\
  unreachable (cache_after (Fetch key a b f now c)) ⊆ unreachable c /\
  (forall j, index c key <> j ->
     reachable (cache_after (Fetch key a b f now c)) !! j = reachable c !! j /\
     unreachable (cache_after (Fetch key a b f now c)) !! j = unreachable c !! j) /\
  (unreachable c !! index c key = None -> reachable c !! index c key = None ->
     cache_after (Fetch key a b f now c) = c /\
     Len (cache_after (Fetch key a b f now c)) = Len c) /\
  (forall r,
     unreachable c !! index c key = Some r \/
     (unreachable c !! index c key = None /\ reachable c !! index c key = Some r) ->
     isExpired r now = true /\
     unreachable (cache_after (Fetch key a b f now c)) !! index c key = None /\
     (unreachable c !! index c key = None ->
        reachable (cache_after (Fetch key a b f now c)) !! index c key = None) /\
     S (Len (cache_after (Fetch key a b f now c))) = Len c).
Proof.
  intros Hf Hmiss.
  assert (Hg : (get (index c key) now c).1 = None).
  { destruct (get (index c key) now c).1 as [r|] eqn:Hg; [|reflexivity].
    exfalso. apply Hmiss. exists r.
    destruct (get_found _ _ _ _ Hg) as (Hx & [Hu | (Hu & Hr & _)]); split; auto. }
  assert (Heq : fetch (index c key) a b f now c =
                mkFetched None (Some e) 1 (get (index c key) now c).2).
  { unfold fetch. destruct (get (index c key) now c) as [[r|] c1]; simpl in *;
      [discriminate|]. rewrite Hf. reflexivity. }
  assert (HF : Fetch key a b f now c =
               mkFetch_result None (Some e) 1 (get (index c key) now c).2).
  { unfold Fetch. rewrite Heq. reflexivity. }
  rewrite HF. simpl.
  destruct (get_frame (index c key) now c) as (_ & _ & _ & Hu & Hr).
  split; [reflexivity|]. split; [reflexivity|]. split; [reflexivity|].
  split; [destruct Hr as [-> | ->]; [reflexivity | apply delete_subseteq]|].
  split; [rewrite Hu; apply delete_subseteq|].
  split; [|split].
  - intros j Hne. rewrite Hu, lookup_delete_ne by exact Hne. split; [|reflexivity].
    destruct Hr as [-> | ->]; [reflexivity | apply lookup_delete_ne; exact Hne].
  - intros Hun Hre. rewrite (get_absent _ _ _ Hun Hre). auto.
  - intros r Hin. destruct (get_miss_present _ _ _ r Hg Hin) as (Hx & Hlen & Hgone).
    split; [exact Hx|]. split; [rewrite Hu; apply lookup_delete_eq|].
    split; [exact Hgone | exact Hlen].
Qed.

(** A miss on an empty cache. [Fetch] on an empty cache, with a
    producer that returns a value,
    runs the producer once and returns a record holding that value. The
    record has the given [minTTL]; its expiry is [now + maxTTL] when
    [maxTTL > 0] (the sum the clock computes, which is the integer sum when
    that fits an [int64]) and unset when [maxTTL] is 0; it has one
    reference and no [lastUnref]. It is the only record of the cache
    afterwards: [Len()] is 1. *)
Theorem Fetch_on_empty key a b (f : fetchFn) now c v :
  reachable c = ∅ -> unreachable c = ∅ ->
  f tt = (v, None) ->
  exists r,
    handle (Fetch key a b f now c) = Some (mkHandle r (index c key)) /\
    error (Fetch key a b f now c) = None /\
    producer_calls (Fetch key a b f now c) = 1%nat /\
    Value r = v /\ minTTL r = a /\ refs r = 1 /\ lastUnref r = 0 /\
    (0 < b -> expires r = time.Add_UnixNano now b) /\
    (0 < b -> is_int64 (now + b) -> expires r = now + b) /\
    (b <= 0 -> expires r = 0) /\
    reachable (cache_after (Fetch key a b f now c)) = {[ index c key := r ]} /\
    unreachable (cache_after (Fetch key a b f now c)) = ∅ /\
    Len (cache_after (Fetch key a b f now c)) = 1%nat.
Proof.
  intros Hre Hun Hf.
  assert (Hg : get (index c key) now c = (None, c)).
  { apply get_absent; [rewrite Hun | rewrite Hre]; apply lookup_empty. }
  assert (HF : fetch (index c key) a b f now c =
               publish (index c key)
                 (mkRecord v a (if 0 <? b then time.Add_UnixNano now b else 0) 0 0) 1 c).
  { unfold fetch. rewrite Hg, Hf. reflexivity. }
  eexists. rewrite (Fetch_of_publish _ _ _ _ _ _ _ _ _ HF). simpl.
  split; [reflexivity|]. split; [reflexivity|]. split; [reflexivity|].
  split; [reflexivity|]. split; [reflexivity|]. split; [reflexivity|].
  split; [reflexivity|].
  split; [intros Hb; apply Z.ltb_lt in Hb; rewrite Hb; reflexivity|].
  split; [intros Hb Hfit; apply Z.ltb_lt in Hb; rewrite Hb; apply wrap_int64_small, Hfit|].
  split; [intros Hb; apply Z.ltb_ge in Hb; rewrite Hb; reflexivity|].
  split; [rewrite Hre; apply insert_empty|].
  split; [exact Hun|].
  unfold Len. simpl. rewrite Hre, Hun, insert_empty, map_size_singleton, map_size_empty.
  reflexivity.
Qed.

(** ** Close *)

(** [fetch] never looks at the quit channel. *)
Lemma get_with_quit ch idx now c :
  get idx now (with_quit ch c) = ((get idx now c).1, with_quit ch (get idx now c).2).
Proof.
  unfold get. simpl. destruct (unreachable c !! idx) as [r|].
  - destruct (isExpired r now); reflexivity.
  - destruct (reachable c !! idx) as [r|]; [destruct (isExpired r now)|]; reflexivity.
Qed.

Lemma fetch_with_quit ch idx a b (f : fetchFn) now c :
  fetch idx a b f now (with_quit ch c) =
    mkFetched (ret (fetch idx a b f now c)) (err (fetch idx a b f now c))
      (calls (fetch idx a b f now c)) (with_quit ch (after (fetch idx a b f now c))).
Proof.
  unfold fetch. rewrite get_with_quit.
  destruct (get idx now c) as [[r|] c1]; simpl; [reflexivity|].
  destruct (f tt) as [v [e|]]; reflexivity.
Qed.

Lemma Fetch_with_quit ch key a b (f : fetchFn) now c :
  Fetch key a b f now (with_quit ch c) =
    mkFetch_result (handle (Fetch key a b f now c)) (error (Fetch key a b f now c))
      (producer_calls (Fetch key a b f now c))
      (with_quit ch (cache_after (Fetch key a b f now c))).
Proof.
  unfold Fetch. rewrite fetch_with_quit. simpl. unfold index. simpl.
  destruct (err _); [reflexivity|]. destruct (ret _); reflexivity.
Qed.

(** C3, as the code has it. The first [Close] of a cache returns: it
    closes the quit channel, so that the sweep loop can take its quit case
    and return, and it leaves both maps as they are, so that [Len] and
    [Fetch] go on as on the open cache. There is no guard against a second
    call: [Close] on the closed cache panics, as closing a closed channel
    does. *)
Theorem Close_then_Close (c : Cache) :
  quit c = Open ->
  exists c',
    Close c = Returns c' /\
    reachable c' = reachable c /\ unreachable c' = unreachable c /\
    quit c' = Closed /\
    ready c' case_quit /\ gcLoop_turn case_quit c' = None /\
    Len c' = Len c /\
    (forall key a b (f : fetchFn) now,
       handle (Fetch key a b f now c') = handle (Fetch key a b f now c) /\
       error (Fetch key a b f now c') = error (Fetch key a b f now c) /\
       producer_calls (Fetch key a b f now c') = producer_calls (Fetch key a b f now c) /\
       reachable (cache_after (Fetch key a b f now c')) =
         reachable (cache_after (Fetch key a b f now c)) /\
       unreachable (cache_after (Fetch key a b f now c')) =
         unreachable (cache_after (Fetch key a b f now c))) /\
    Close c' = Panics "close of closed channel".
Proof.
  intros Hq. exists (with_quit Closed c).
  split; [unfold Close; rewrite Hq; reflexivity|].
  repeat (split; [reflexivity|]).
  split; [|reflexivity].
  intros key a b f now. rewrite Fetch_with_quit. simpl. auto.
Qed.

(** ** More on Fetch *)

Lemma get_found_iff idx now c r :
  (get idx now c).1 = Some r <-> holds_good idx now c r.
Proof.
  split.
  - intros Hg. destruct (get_found _ _ _ _ Hg) as (Hx & [Hu | (Hu & Hr & _)]);
      split; auto.
  - intros [Hin Hx]. apply get_hit; assumption.
Qed.

Lemma fetch_calls idx a b (f : fetchFn) now c :
  calls (fetch idx a b f now c) = match (get idx now c).1 with Some _ => 0 | None => 1 end%nat.
Proof.
  destruct (fetch_inv idx a b f now c) as [r0 Hg | v e Hg Hf | v Hg Hf];
    rewrite Hg; reflexivity.
Qed.

(** What a successful [fetch] stores: the returned record, under the index,
    on top of the reachable map as it was. *)
Lemma fetch_reachable_insert idx a b (f : fetchFn) now c x :
  ret (fetch idx a b f now c) = Some x ->
  reachable (after (fetch idx a b f now c)) = <[idx := x]> (reachable c).
Proof.
  destruct (get_frame idx now c) as (_ & _ & _ & _ & Hr).
  destruct (fetch_inv idx a b f now c) as [r0 Hg | v e Hg Hf | v Hg Hf]; simpl;
    try discriminate; intros [= <-];
    destruct Hr as [-> | ->]; try reflexivity; apply insert_delete_eq.
Qed.

Lemma Fetch_handle key a b (f : fetchFn) now c h :
  handle (Fetch key a b f now c) = Some h ->
  ret (fetch (index c key) a b f now c) = Some (record h) /\
  err (fetch (index c key) a b f now c) = None /\
  finalizer h = index c key.
Proof.
  unfold Fetch. destruct (err _); [discriminate|].
  destruct (ret _); [|discriminate]. simpl. intros [= <-]. auto.
Qed.

(** X1. [Fetch] returns either a handle and no error, or an error and no
    handle, never both and never neither. An error means that the producer
    ran (once); a handle carries the index of the key for its finalizer, and
    the producer ran at most once for it. *)
Theorem Fetch_handle_or_error key a b (f : fetchFn) now c :
  (exists h, handle (Fetch key a b f now c) = Some h /\
             error (Fetch key a b f now c) = None /\
             finalizer h = index c key /\
             (producer_calls (Fetch key a b f now c) <= 1)%nat) \/
  (exists e v, handle (Fetch key a b f now c) = None /\
               error (Fetch key a b f now c) = Some e /\
               f tt = (v, Some e) /\
               producer_calls (Fetch key a b f now c) = 1%nat).
Proof.
  unfold Fetch.
  destruct (fetch_inv (index c key) a b f now c) as [r0 Hg | v e Hg Hf | v Hg Hf]; simpl.
  - left. eexists. repeat split. lia.
  - right. exists e, v. auto.
  - left. eexists. repeat split. lia.
Qed.

(** X2. [Fetch] runs its producer exactly when the index of the key holds
    no record that is good at the time of the call (none at all, or an
    expired one), and then runs it once; on a good record the producer is
    not run, even one that would fail. *)
Theorem Fetch_producer_runs_iff_miss key a b (f : fetchFn) now c :
  (producer_calls (Fetch key a b f now c) = 0%nat <->
     exists r, holds_good (index c key) now c r) /\
  (producer_calls (Fetch key a b f now c) = 1%nat <->
     ~ exists r, holds_good (index c key) now c r).
Proof.
  rewrite producer_calls_Fetch, fetch_calls.
  destruct (get (index c key) now c).1 as [r|] eqn:Hg.
  - apply get_found_iff in Hg. split; split; try discriminate; eauto.
    intros Hno. exfalso. apply Hno. eauto.
  - assert (Hno : ~ exists r, holds_good (index c key) now c r).
    { intros [r Hr]. apply get_found_iff in Hr. congruence. }
    split; split; try discriminate; auto. intros Hr. contradiction.
Qed.

(** X3. A [Fetch] of a key touches no other index: in both maps every
    index but the one of the key keeps what it had, whether the call hits,
    creates a record or fails. The index of the key itself is never left in
    the unreachable map, and the seed and the quit channel are as before. *)
Theorem Fetch_frame key a b (f : fetchFn) now c :
  (forall j, index c key <> j ->
     reachable (cache_after (Fetch key a b f now c)) !! j = reachable c !! j /\
     unreachable (cache_after (Fetch key a b f now c)) !! j = unreachable c !! j) /\
  unreachable (cache_after (Fetch key a b f now c)) !! index c key = None /\
  seed (cache_after (Fetch key a b f now c)) = seed c /\
  quit (cache_after (Fetch key a b f now c)) = quit c /\
  gcInterval (cache_after (Fetch key a b f now c)) = gcInterval c.
Proof.
  rewrite cache_after_Fetch, fetch_unreachable.
  destruct (fetch_fields (index c key) a b f now c) as (Hg & Hs & Hq).
  split; [|split; [apply lookup_delete_eq | auto]].
  intros j Hne. split; [apply fetch_reachable_ne; exact Hne|].
  apply lookup_delete_ne; exact Hne.
Qed.

Lemma fetch_Len idx a b (f : fetchFn) now c x :
  disjoint_maps c ->
  ret (fetch idx a b f now c) = Some x ->
  Len (after (fetch idx a b f now c)) =
    match reachable c !! idx, unreachable c !! idx with
    | None, None => S (Len c)
    | _, _ => Len c
    end.
Proof.
  intros Hd Hret. unfold Len.
  rewrite (fetch_reachable_insert _ _ _ _ _ _ _ Hret), fetch_unreachable.
  rewrite map_size_insert, map_size_delete.
  destruct (reachable c !! idx) as [r|] eqn:Hr.
  - rewrite (Hd idx) by (rewrite Hr; eauto). reflexivity.
  - destruct (unreachable c !! idx) as [r|] eqn:Hu; simpl; [|reflexivity].
    pose proof (size_delete_present _ _ _ Hu) as Hs.
    rewrite map_size_delete, Hu in Hs. simpl in Hs. lia.
Qed.

(** X4. In every state reached from a new cache, a successful [Fetch] adds
    at most one record: [Len()] grows by one when the index of the key held
    no record, and stays as it was when it held one, be it reused or
    expired and replaced. *)
Theorem Fetch_Len interval s ops key a b (f : fetchFn) now h :
  handle (Fetch key a b f now (run ops (New interval s))) = Some h ->
  Len (cache_after (Fetch key a b f now (run ops (New interval s)))) =
    match reachable (run ops (New interval s)) !! index (run ops (New interval s)) key,
          unreachable (run ops (New interval s)) !! index (run ops (New interval s)) key with
    | None, None => S (Len (run ops (New interval s)))
    | _, _ => Len (run ops (New interval s))
    end.
Proof.
  intros Hh. destruct (Fetch_handle _ _ _ _ _ _ _ Hh) as (Hret & _ & _).
  rewrite cache_after_Fetch.
  apply (fetch_Len _ _ _ _ _ _ _ (run_disjoint ops _ (New_disjoint interval s)) Hret).
Qed.

(** The whole result of a hit. *)
Lemma Fetch_hit_result key a b (f : fetchFn) now c r :
  holds_good (index c key) now c r ->
  Fetch key a b f now c =
    mkFetch_result
      (Some (mkHandle (with_refs (uint_incr (refs r)) r) (index c key))) None 0
      (with_reachable
         (<[index c key := with_refs (uint_incr (refs r)) r]>
            (reachable (get (index c key) now c).2))
         (get (index c key) now c).2).
Proof.
  intros Hgood. apply get_found_iff in Hgood.
  apply Fetch_of_publish, fetch_hit_eq, Hgood.
Qed.

(** The whole result of a miss whose producer returns a value. *)
Lemma Fetch_miss_result key a b (f : fetchFn) now c v :
  (get (index c key) now c).1 = None -> f tt = (v, None) ->
  Fetch key a b f now c =
    mkFetch_result
      (Some (mkHandle (fresh v a b now) (index c key))) None 1
      (with_reachable
         (<[index c key := fresh v a b now]> (reachable (get (index c key) now c).2))
         (get (index c key) now c).2).
Proof.
  intros Hg Hf.
  assert (HF : fetch (index c key) a b f now c =
               publish (index c key)
                 (mkRecord v a (if 0 <? b then time.Add_UnixNano now b else 0) 0 0) 1
                 (get (index c key) now c).2).
  { unfold fetch. destruct (get (index c key) now c) as [[r|] c1]; simpl in *;
      [discriminate|]. rewrite Hf. reflexivity. }
  rewrite (Fetch_of_publish _ _ _ _ _ _ _ _ _ HF). reflexivity.
Qed.

Lemma get_expired idx now c r :
  unreachable c !! idx = Some r \/
  (unreachable c !! idx = None /\ reachable c !! idx = Some r) ->
  isExpired r now = true ->
  (get idx now c).1 = None.
Proof.
  intros [Hu | [Hu Hr]] Hx.
  - rewrite (get_unreachable _ _ _ _ Hu), Hx. reflexivity.
  - rewrite (get_reachable _ _ _ _ Hu Hr), Hx. reflexivity.
Qed.

(** X5. When the record held for the index of the key is expired at the
    time of the call, in either map, and the producer returns a value,
    [Fetch] runs the producer once and puts a new record in the place of the
    old one: it holds the produced value, the [minTTL] of this call and the
    expiry computed from its [maxTTL], has one reference and no
    [lastUnref], whatever the old record counted; the index is in the
    reachable map only. *)
Theorem Fetch_replaces_expired key a b (f : fetchFn) now c r v :
  unreachable c !! index c key = Some r \/
  (unreachable c !! index c key = None /\ reachable c !! index c key = Some r) ->
  isExpired r now = true ->
  f tt = (v, None) ->
  producer_calls (Fetch key a b f now c) = 1%nat /\
  handle (Fetch key a b f now c) = Some (mkHandle (fresh v a b now) (index c key)) /\
  reachable (cache_after (Fetch key a b f now c)) !! index c key = Some (fresh v a b now) /\
  unreachable (cache_after (Fetch key a b f now c)) !! index c key = None.
Proof.
  intros Hin Hx Hf.
  pose proof (get_expired _ _ _ _ Hin Hx) as Hg.
  destruct (get_frame (index c key) now c) as (_ & _ & _ & Hu & _).
  rewrite (Fetch_miss_result _ _ _ _ _ _ _ Hg Hf). simpl.
  split; [reflexivity|]. split; [reflexivity|].
  split; [apply lookup_insert_eq|]. rewrite Hu. apply lookup_delete_eq.
Qed.

(** A hit that needs the index out of the unreachable map only. *)
Lemma Fetch_hit_at key a b (f : fetchFn) now c r :
  unreachable c !! index c key = None ->
  reachable c !! index c key = Some r ->
  isExpired r now = false ->
  Fetch key a b f now c =
    mkFetch_result
      (Some (mkHandle (with_refs (uint_incr (refs r)) r) (index c key))) None 0
      (with_reachable (<[index c key := with_refs (uint_incr (refs r)) r]> (reachable c)) c).
Proof.
  intros Hu Hr Hx.
  assert (Hgood : holds_good (index c key) now c r) by (split; auto).
  rewrite (Fetch_hit_result _ a b f _ _ _ Hgood).
  rewrite (get_reachable _ _ _ _ Hu Hr), Hx. reflexivity.
Qed.

(** X6. Keys are told apart by their index only. If two keys have the same
    index, a [Fetch] of the second one, made while the record the first one
    got is in place and not expired, does not run its producer and returns
    the value fetched for the first key. *)
Theorem colliding_keys_share_record k1 k2 a b (f : fetchFn) now c h
    a' b' (f' : fetchFn) now' :
  index c k1 = index c k2 ->
  handle (Fetch k1 a b f now c) = Some h ->
  isExpired (record h) now' = false ->
  producer_calls (Fetch k2 a' b' f' now' (cache_after (Fetch k1 a b f now c))) = 0%nat /\
  exists h',
    handle (Fetch k2 a' b' f' now' (cache_after (Fetch k1 a b f now c))) = Some h' /\
    Value (record h') = Value (record h) /\
    finalizer h' = finalizer h.
Proof.
  intros Hidx Hh Hx.
  destruct (Fetch_stores _ _ _ _ _ _ _ Hh) as (Hfin & Hst & Hun & _).
  assert (Hi2 : index (cache_after (Fetch k1 a b f now c)) k2 = index c k1).
  { unfold index at 1. rewrite cache_after_Fetch.
    destruct (fetch_fields (index c k1) a b f now c) as (_ & -> & _). symmetry. exact Hidx. }
  rewrite <- Hi2 in Hst, Hun.
  rewrite (Fetch_hit_at k2 a' b' f' now' _ _ Hun Hst Hx). simpl.
  split; [reflexivity|]. eexists. split; [reflexivity|]. simpl.
  split; [reflexivity|]. rewrite Hfin. exact Hi2.
Qed.

(** ** More on unref *)

Lemma cache_eta (c : Cache) :
  mkCache (gcInterval c) (reachable c) (unreachable c) (seed c) (quit c) = c.
Proof. destruct c. reflexivity. Qed.

Lemma unref_absent idx t c : reachable c !! idx = None -> unref idx t c = c.
Proof. intros H. unfold unref. rewrite H. reflexivity. Qed.

(** A release that leaves references: the record stays, one reference
    less. *)
Lemma unref_keep idx t c r :
  reachable c !! idx = Some r -> 2 <= refs r < modulus64 ->
  unref idx t c = with_reachable (<[idx := with_refs (refs r - 1) r]> (reachable c)) c.
Proof.
  intros Hr Hn. unfold unref. rewrite Hr. simpl.
  rewrite uint_decr_exact by lia.
  destruct (0 <? refs r - 1) eqn:Hpos; [reflexivity|].
  apply Z.ltb_ge in Hpos. lia.
Qed.

(** The release of the last reference: the record moves to the unreachable
    map, stamped with the time of the release. *)
Lemma unref_move idx t c r :
  reachable c !! idx = Some r -> refs r = 1 ->
  unref idx t c =
    with_unreachable (<[idx := with_lastUnref t (with_refs 0 r)]> (unreachable c))
      (with_reachable (delete idx (reachable c)) c).
Proof.
  intros Hr Hn. unfold unref. rewrite Hr, Hn. reflexivity.
Qed.

Lemma unref_Len_disjoint idx t c :
  disjoint_maps c -> Len (unref idx t c) = Len c.
Proof.
  intros Hd. unfold unref. destruct (reachable c !! idx) as [r|] eqn:Hr; [|reflexivity].
  destruct (0 <? refs (with_refs (uint_decr (refs r)) r)); unfold Len; simpl.
  - rewrite map_size_insert_Some by (rewrite Hr; eauto). reflexivity.
  - rewrite map_size_insert_None by (apply Hd; rewrite Hr; eauto).
    pose proof (size_delete_present _ _ _ Hr). lia.
Qed.

(** X7. In every state reached from a new cache, [unref] never changes
    [Len()]: releasing a handle at most moves the record from the reachable
    to the unreachable map; only the sweep, or a later [Fetch], removes
    it. *)
Theorem unref_Len interval s ops idx t :
  Len (unref idx t (run ops (New interval s))) = Len (run ops (New interval s)).
Proof.
  apply unref_Len_disjoint, run_disjoint, New_disjoint.
Qed.

Lemma unrefs_app idx ts ts' c : unrefs idx (ts ++ ts') c = unrefs idx ts' (unrefs idx ts c).
Proof. unfold unrefs. apply fold_left_app. Qed.

Lemma unrefs_absent idx ts c : reachable c !! idx = None -> unrefs idx ts c = c.
Proof.
  induction ts as [|t ts IH]; intros H; simpl; [reflexivity|].
  rewrite (unref_absent _ _ _ H). apply IH, H.
Qed.

Lemma unrefs_below idx ts : forall c r,
  reachable c !! idx = Some r -> 1 <= refs r < modulus64 ->
  Z.of_nat (length ts) < refs r ->
  reachable (unrefs idx ts c) !! idx = Some (with_refs (refs r - Z.of_nat (length ts)) r) /\
  (forall j, idx <> j -> reachable (unrefs idx ts c) !! j = reachable c !! j) /\
  unreachable (unrefs idx ts c) = unreachable c.
Proof.
  induction ts as [|t ts IH]; intros c r Hr Hn Hlen.
  - simpl. rewrite Z.sub_0_r. split; [|auto].
    rewrite Hr. destruct r; reflexivity.
  - rewrite length_cons, Nat2Z.inj_succ in Hlen |- *.
    change (unrefs idx (t :: ts) c) with (unrefs idx ts (unref idx t c)).
    rewrite (unref_keep _ _ _ _ Hr) by lia.
    destruct (IH (with_reachable (<[idx := with_refs (refs r - 1) r]> (reachable c)) c)
                (with_refs (refs r - 1) r)) as (H1 & H2 & H3).
    + simpl. apply lookup_insert_eq.
    + simpl. lia.
    + simpl. lia.
    + split; [|split].
      * rewrite H1. simpl. unfold with_refs. simpl. f_equal. f_equal. lia.
      * intros j Hne. rewrite (H2 j Hne). simpl. apply lookup_insert_ne, Hne.
      * rewrite H3. reflexivity.
Qed.

(** X8. A record with [n] references stays in the reachable map through
    [n - 1] releases, counting down and otherwise unchanged, whatever the
    times of the releases; the [n]-th release moves it to the unreachable
    map with no reference and the time of that release as [lastUnref]; any
    further [unref] of the index changes nothing. *)
Theorem unref_counts_down idx c r ts t more :
  reachable c !! idx = Some r ->
  1 <= refs r < modulus64 ->
  Z.of_nat (length ts) = refs r - 1 ->
  reachable (unrefs idx ts c) !! idx = Some (with_refs 1 r) /\
  unreachable (unrefs idx ts c) = unreachable c /\
  reachable (unrefs idx (ts ++ [t]) c) !! idx = None /\
  unreachable (unrefs idx (ts ++ [t]) c) !! idx = Some (with_lastUnref t (with_refs 0 r)) /\
  unrefs idx (ts ++ t :: more) c = unrefs idx (ts ++ [t]) c.
Proof.
  intros Hr Hn Hlen.
  destruct (unrefs_below idx ts c r Hr Hn) as (H1 & _ & H3); [lia|].
  replace (refs r - Z.of_nat (length ts)) with 1 in H1 by lia.
  assert (Hlast : unrefs idx (ts ++ [t]) c =
                  with_unreachable
                    (<[idx := with_lastUnref t (with_refs 0 (with_refs 1 r))]>
                       (unreachable (unrefs idx ts c)))
                    (with_reachable (delete idx (reachable (unrefs idx ts c)))
                       (unrefs idx ts c))).
  { rewrite unrefs_app. simpl. apply (unref_move _ _ _ _ H1). reflexivity. }
  split; [exact H1|]. split; [exact H3|].
  split; [rewrite Hlast; simpl; apply lookup_delete_eq|].
  split; [rewrite Hlast; simpl; apply lookup_insert_eq|].
  replace (ts ++ t :: more) with ((ts ++ [t]) ++ more)
    by (rewrite <- app_assoc; reflexivity).
  rewrite unrefs_app. apply unrefs_absent.
  rewrite Hlast. simpl. apply lookup_delete_eq.
Qed.

(** ** Fetch and unref together *)

Lemma with_refs_back (r : CacheRecord) n : n = refs r -> with_refs n (with_refs (n + 1) r) = r.
Proof. intros ->. destruct r. reflexivity. Qed.

(** X9. Taking a reference and giving it back leaves the cache as it was:
    a [Fetch] that hits a record of the reachable map, followed by an
    [unref] of its index, gives back the very same cache (both maps, every
    field of the record), whenever the counter is below its maximum. *)
Theorem Fetch_then_unref key a b (f : fetchFn) now c r t :
  unreachable c !! index c key = None ->
  reachable c !! index c key = Some r ->
  isExpired r now = false ->
  1 <= refs r < modulus64 - 1 ->
  unref (index c key) t (cache_after (Fetch key a b f now c)) = c.
Proof.
  intros Hu Hr Hx Hn.
  rewrite (Fetch_hit_at _ a b f _ _ _ Hu Hr Hx). simpl.
  rewrite uint_incr_exact by lia.
  rewrite (unref_keep _ _ _ (with_refs (refs r + 1) r));
    [|simpl; apply lookup_insert_eq | simpl; lia].
  simpl. unfold with_reachable. simpl.
  rewrite insert_insert_eq.
  replace (refs r + 1 - 1) with (refs r) by lia.
  rewrite (with_refs_back r (refs r) eq_refl).
  rewrite (insert_id _ _ _ Hr). apply cache_eta.
Qed.

(** X10. A record taken back from the unreachable map within its grace
    period and released again is stamped anew: after the [Fetch] (which
    does not run the producer) and the [unref], the record is in the
    unreachable map as it was before, except that its [lastUnref] is the
    time of the second release, from which the grace period runs again. *)
Theorem reactivate_then_release key a b (f : fetchFn) now c r t :
  unreachable c !! index c key = Some r ->
  refs r = 0 ->
  isExpired r now = false ->
  producer_calls (Fetch key a b f now c) = 0%nat /\
  reachable (unref (index c key) t (cache_after (Fetch key a b f now c))) !! index c key
    = None /\
  unreachable (unref (index c key) t (cache_after (Fetch key a b f now c))) !! index c key
    = Some (with_lastUnref t r).
Proof.
  intros Hu Hn Hx.
  assert (Hgood : holds_good (index c key) now c r) by (split; auto).
  rewrite (Fetch_hit_result _ a b f _ _ _ Hgood). simpl.
  split; [reflexivity|].
  rewrite (unref_move _ _ _ (with_refs (uint_incr (refs r)) r));
    [|simpl; apply lookup_insert_eq | simpl; rewrite Hn; reflexivity].
  simpl. split; [apply lookup_delete_eq|].
  rewrite lookup_insert_eq. f_equal. destruct r. simpl in *. subst. reflexivity.
Qed.

(** X11. The grace period, from the release of the last reference at time
    [t] to a tick of the sweep at time [now]: the record is still in the
    unreachable map after the tick if [now] is at most [t + minTTL] and
    the record's expiry, if set, has not passed; it is gone if [now] is
    later than [t + minTTL] or its expiry has passed. ([t] is a time after
    the epoch and [t + minTTL] fits an [int64].) *)
Theorem release_then_sweep idx c r t now :
  reachable c !! idx = Some r ->
  refs r = 1 ->
  0 < t ->
  is_int64 (t + minTTL r) ->
  unreachable (gcTick now (unref idx t c)) !! idx =
    if (t + minTTL r <? now) || ((0 <? expires r) && (expires r <? now))
    then None
    else Some (with_lastUnref t (with_refs 0 r)).
Proof.
  intros Hr Hn Ht Hfit.
  rewrite (unref_move _ _ _ _ Hr Hn). simpl.
  rewrite sweep_lookup, lookup_insert_eq. unfold survives, isExpired. simpl.
  rewrite (int64_add_exact _ _ Hfit).
  apply Z.ltb_lt in Ht. rewrite Ht. simpl.
  destruct (t + minTTL r <? now); simpl; [reflexivity|].
  destruct ((0 <? expires r) && (expires r <? now)); reflexivity.
Qed.

(** X12. [unref] goes by the index alone. When an expired record of the
    reachable map has been replaced by a [Fetch], the new record has one
    reference, and the first [unref] of the index after it, be it the
    finalizer of a handle of the old record, moves the new record to the
    unreachable map. *)
Theorem release_after_replacement key a b (f : fetchFn) now c r v t :
  unreachable c !! index c key = None ->
  reachable c !! index c key = Some r ->
  isExpired r now = true ->
  f tt = (v, None) ->
  reachable (unref (index c key) t (cache_after (Fetch key a b f now c))) !! index c key
    = None /\
  unreachable (unref (index c key) t (cache_after (Fetch key a b f now c))) !! index c key
    = Some (with_lastUnref t (with_refs 0 (fresh v a b now))).
Proof.
  intros Hu Hr Hx Hf.
  assert (Hg : (get (index c key) now c).1 = None).
  { apply (get_expired _ _ _ r); auto. }
  rewrite (Fetch_miss_result _ _ _ _ _ _ _ Hg Hf). simpl.
  rewrite (unref_move _ _ _ (fresh v a b now));
    [|simpl; apply lookup_insert_eq | reflexivity].
  simpl. split; [apply lookup_delete_eq | apply lookup_insert_eq].
Qed.

(** ** More on the sweep *)

Lemma isExpired_later (r : CacheRecord) now now' :
  now <= now' -> isExpired r now = true -> isExpired r now' = true.
Proof.
  intros Hle. rewrite !isExpired_true. unfold grace_elapsed, age_exceeded.
  intros [[H1 H2] | [H1 H2]]; [left | right]; split; lia.
Qed.

(** X13. Expiry is for good: a record that is expired at some time is
    expired at every later time, and one that is good at some time was good
    at every earlier time, as long as its fields stay the same. *)
Theorem isExpired_monotone (r : CacheRecord) now now' :
  now <= now' ->
  (isExpired r now = true -> isExpired r now' = true) /\
  (isExpired r now' = false -> isExpired r now = false).
Proof.
  intros Hle. split; [apply isExpired_later, Hle|].
  intros Hgood. destruct (isExpired r now) eqn:Hx; [|reflexivity].
  rewrite (isExpired_later r now now' Hle Hx) in Hgood. discriminate.
Qed.

Lemma sweep_subseteq now (m : gmap Z CacheRecord) : sweep now m ⊆ m.
Proof.
  apply map_subseteq_spec. intros i r Hi. apply sweep_lookup_Some in Hi as [Hi _]. exact Hi.
Qed.

(** X14. A tick of the sweep makes an earlier tick redundant: sweeping at
    [now] and then at a later [now'] leaves the cache that the sweep at
    [now'] alone leaves. A tick never makes [Len()] larger. *)
Theorem gcTick_later now now' c :
  now <= now' ->
  gcTick now' (gcTick now c) = gcTick now' c /\
  (Len (gcTick now c) <= Len c)%nat.
Proof.
  intros Hle. split.
  - unfold gcTick, with_unreachable. simpl. f_equal.
    apply map_eq. intros j. rewrite !sweep_lookup. unfold survives.
    destruct (unreachable c !! j) as [r|]; [|reflexivity].
    destruct (isExpired r now) eqn:Hx; [|reflexivity].
    rewrite (isExpired_later r now now' Hle Hx). reflexivity.
  - unfold Len. simpl.
    pose proof (map_subseteq_size _ _ (sweep_subseteq now (unreachable c))) as Hs.
    apply Nat.add_le_mono_l. exact Hs.
Qed.

Lemma gcLoop_frame cases : forall c,
  reachable (gcLoop cases c) = reachable c /\
  unreachable (gcLoop cases c) ⊆ unreachable c /\
  seed (gcLoop cases c) = seed c /\ quit (gcLoop cases c) = quit c.
Proof.
  induction cases as [|[|now] cases IH]; intros c; simpl; auto.
  destruct (IH (gcTick now c)) as (H1 & H2 & H3 & H4). simpl in *.
  split; [exact H1|]. split; [|split; [exact H3 | exact H4]].
  etransitivity; [exact H2 | apply sweep_subseteq].
Qed.

(** X15. The sweep loop, over the cases its [select] takes: it never
    touches the reachable map, it only removes records from the
    unreachable map, and once it has taken the quit case nothing that
    follows has any effect. *)
Theorem gcLoop_spec cases post c :
  reachable (gcLoop cases c) = reachable c /\
  unreachable (gcLoop cases c) ⊆ unreachable c /\
  (Len (gcLoop cases c) <= Len c)%nat /\
  gcLoop (cases ++ case_quit :: post) c = gcLoop cases c.
Proof.
  destruct (gcLoop_frame cases c) as (H1 & H2 & _).
  split; [exact H1|]. split; [exact H2|]. split.
  - unfold Len. rewrite H1. apply Nat.add_le_mono_l, map_subseteq_size, H2.
  - clear H1 H2. revert c. induction cases as [|[|now] cases IH]; intros c; simpl.
    + reflexivity.
    + reflexivity.
    + apply IH.
Qed.

(** ** The fields no operation writes *)

Lemma unref_fields idx t c :
  seed (unref idx t c) = seed c /\ quit (unref idx t c) = quit c /\
  gcInterval (unref idx t c) = gcInterval c.
Proof.
  unfold unref. destruct (reachable c !! idx) as [r|]; [|auto].
  destruct (0 <? refs (with_refs (uint_decr (refs r)) r)); simpl; auto.
Qed.

Lemma step_fields c o :
  seed (step c o) = seed c /\ quit (step c o) = quit c /\
  gcInterval (step c o) = gcInterval c.
Proof.
  destruct o as [key a b f now | idx now | now]; simpl.
  - rewrite cache_after_Fetch.
    destruct (fetch_fields (index c key) a b f now c) as (Hg & Hs & Hq). auto.
  - apply unref_fields.
  - auto.
Qed.

Lemma run_fields ops : forall c,
  seed (run ops c) = seed c /\ quit (run ops c) = quit c /\
  gcInterval (run ops c) = gcInterval c.
Proof.
  induction ops as [|o ops IH]; intros c; simpl; [auto|].
  destruct (IH (step c o)) as (H1 & H2 & H3).
  destruct (step_fields c o) as (G1 & G2 & G3).
  rewrite H1, H2, H3. auto.
Qed.

(** X16. No [Fetch], [unref] or tick writes the seed or the quit channel.
    So a key has the same index throughout the life of a cache, the one its
    seed gave it at [New], and the first [Close] of a cache returns, after
    whatever run: only [Close] itself closes the channel. *)
Theorem run_keeps_index_and_quit interval s ops key :
  index (run ops (New interval s)) key = Sum64 s key /\
  quit (run ops (New interval s)) = Open /\
  Close (run ops (New interval s)) = Returns (with_quit Closed (run ops (New interval s))).
Proof.
  destruct (run_fields ops (New interval s)) as (Hs & Hq & _). simpl in Hs, Hq.
  split; [unfold index; rewrite Hs; reflexivity|].
  split; [exact Hq|]. unfold Close. rewrite Hq. reflexivity.
Qed.

(** ** Edges *)

(** X17. [unref] touches its index only: every other index keeps what it
    had in both maps. The record of the index, if the reachable map has
    one, is afterwards in one of the two maps with the value, [minTTL] and
    expiry it had; if the reachable map has none (the record was dropped or
    has already moved), [unref] does nothing at all. *)
Theorem unref_frame idx t c :
  (forall j, idx <> j ->
     reachable (unref idx t c) !! j = reachable c !! j /\
     unreachable (unref idx t c) !! j = unreachable c !! j) /\
  (forall r, reachable c !! idx = Some r ->
     exists r',
       ((reachable (unref idx t c) !! idx = Some r' /\ lastUnref r' = lastUnref r) \/
        (reachable (unref idx t c) !! idx = None /\
         unreachable (unref idx t c) !! idx = Some r' /\ lastUnref r' = t)) /\
       Value r' = Value r /\ minTTL r' = minTTL r /\ expires r' = expires r /\
       refs r' = uint_decr (refs r)) /\
  (reachable c !! idx = None -> unref idx t c = c).
Proof.
  split; [|split].
  - intros j Hne. unfold unref. destruct (reachable c !! idx) as [r|]; [|auto].
    destruct (0 <? refs (with_refs (uint_decr (refs r)) r)); simpl.
    + rewrite lookup_insert_ne by exact Hne. auto.
    + rewrite lookup_delete_ne, lookup_insert_ne by exact Hne. auto.
  - intros r Hr. unfold unref. rewrite Hr.
    destruct (0 <? refs (with_refs (uint_decr (refs r)) r)); simpl.
    + exists (with_refs (uint_decr (refs r)) r). rewrite lookup_insert_eq.
      split; [left; auto | auto].
    + exists (with_lastUnref t (with_refs (uint_decr (refs r)) r)).
      rewrite lookup_delete_eq, lookup_insert_eq.
      split; [right; auto | auto].
  - apply unref_absent.
Qed.

(** X18. The grace clause adds [lastUnref] and [minTTL] as [int64]s. For a
    released record whose [minTTL] is so large that the sum passes the
    largest [int64], the sum wraps around to a negative number, and
    [isExpired] is true at every time that is not negative: such a record
    has no grace period at all. *)
Theorem grace_overflow_expires (r : CacheRecord) (now : Z) :
  0 < lastUnref r -> is_int64 (lastUnref r) -> is_int64 (minTTL r) ->
  int64_half <= lastUnref r + minTTL r ->
  0 <= now ->
  int64_add (lastUnref r) (minTTL r) = lastUnref r + minTTL r - modulus64 /\
  isExpired r now = true.
Proof.
  unfold is_int64. intros Hl Hlr Hmr Hover Hnow.
  assert (Hsum : int64_add (lastUnref r) (minTTL r) = lastUnref r + minTTL r - modulus64).
  { unfold int64_add, wrap_int64, int64_half, modulus64 in *.
    replace ((lastUnref r + minTTL r + 2 ^ 63) mod 2 ^ 64)
      with (lastUnref r + minTTL r + 2 ^ 63 - 2 ^ 64); [lia|].
    apply Z.mod_unique with (q := 1); lia. }
  split; [exact Hsum|].
  apply isExpired_true. left. unfold grace_elapsed. rewrite Hsum.
  unfold int64_half, modulus64 in *. lia.
Qed.

(** X19. The life of a new record that is kept referenced: created at a
    time [now] after the epoch with a positive [maxTTL] (and [now + maxTTL]
    an [int64]), it is good at every time up to [now + maxTTL] included
    and expired at every later time; created with a [maxTTL] of zero or
    less it never expires. *)
Theorem fresh_lifetime (v : V) (a b now now' : Z) :
  0 < now -> is_int64 (now + b) ->
  isExpired (fresh v a b now) now' = ((0 <? b) && (now + b <? now')).
Proof.
  intros Hnow Hfit. unfold isExpired, fresh. simpl.
  destruct (0 <? b) eqn:Hb; simpl.
  - unfold time.Add_UnixNano. rewrite (wrap_int64_small _ Hfit).
    apply Z.ltb_lt in Hb.
    assert (Hpos : (0 <? now + b) = true) by (apply Z.ltb_lt; lia).
    rewrite Hpos. simpl. destruct (now + b <? now'); reflexivity.
  - reflexivity.
Qed.

(** ** A second Fetch while a handle is held *)

Lemma isExpired_same (r h : CacheRecord) now :
  same_entry r h -> isExpired r now = isExpired h now.
Proof.
  intros (_ & Hm & He & Hl). unfold isExpired. rewrite Hm, He, Hl. reflexivity.
Qed.

Lemma unref_other idx j t c :
  idx <> j ->
  reachable (unref idx t c) !! j = reachable c !! j /\
  unreachable (unref idx t c) !! j = unreachable c !! j.
Proof.
  intros Hne. unfold unref. destruct (reachable c !! idx) as [r|]; [|auto].
  destruct (0 <? refs (with_refs (uint_decr (refs r)) r)); simpl.
  - rewrite lookup_insert_ne by exact Hne. auto.
  - rewrite lookup_delete_ne, lookup_insert_ne by exact Hne. auto.
Qed.

(** The record a successful [Fetch] returns has a counter within [uint]. *)
Lemma Fetch_handle_refs key a b (f : fetchFn) now c h :
  handle (Fetch key a b f now c) = Some h -> 0 <= refs (record h) < modulus64.
Proof.
  unfold Fetch.
  destruct (fetch_inv (index c key) a b f now c) as [r0 Hg | v e Hg Hf | v Hg Hf]; simpl;
    try discriminate; intros [= <-]; simpl; apply uint_incr_range.
Qed.

(** Each operation allowed by [held] keeps the record in place. *)
Lemma step_in_place idx h c o rest :
  in_place idx h c -> held idx (o :: rest) c -> in_place idx h (step c o).
Proof.
  intros (Hun & r & Hre & Hsame & Hrange) [Hop _].
  destruct o as [key a b f now | i now | now]; unfold in_place; simpl.
  - destruct (decide (index c key = idx)) as [Heq | Hne].
    + specialize (Hop Heq). rewrite producer_calls_Fetch, fetch_calls in Hop.
      destruct (get (index c key) now c).1 as [r1|] eqn:Hg; [|discriminate].
      rewrite Heq in Hg.
      destruct (get_found _ _ _ _ Hg) as (Hx & [Hu | (_ & Hr1 & _)]); [congruence|].
      assert (r1 = r) as -> by congruence.
      rewrite <- Heq in Hun, Hre.
      rewrite (Fetch_hit_at _ a b f _ _ _ Hun Hre Hx). simpl. rewrite Heq in *.
      split; [exact Hun|]. exists (with_refs (uint_incr (refs r)) r).
      split; [apply lookup_insert_eq|]. split; [exact Hsame | apply uint_incr_range].
    + rewrite cache_after_Fetch, fetch_unreachable.
      split; [rewrite lookup_delete_ne by exact Hne; exact Hun|].
      exists r. rewrite fetch_reachable_ne by exact Hne. auto.
  - destruct (decide (i = idx)) as [-> | Hne].
    + destruct (Hop eq_refl) as (r2 & Hr2 & Hrefs).
      assert (r2 = r) as -> by congruence.
      rewrite (unref_keep _ _ _ _ Hre) by lia. simpl.
      split; [exact Hun|]. exists (with_refs (refs r - 1) r).
      split; [apply lookup_insert_eq|]. split; [exact Hsame | simpl; lia].
    + destruct (unref_other i idx now c Hne) as [Hr' Hu'].
      split; [rewrite Hu'; exact Hun|]. exists r. rewrite Hr'. auto.
  - split; [rewrite sweep_lookup, Hun; reflexivity|]. exists r. auto.
Qed.

Lemma run_in_place idx h mid : forall c,
  in_place idx h c -> held idx mid c -> in_place idx h (run mid c).
Proof.
  induction mid as [|o mid IH]; intros c Hin Hheld; simpl; [exact Hin|].
  apply IH; [apply (step_in_place _ _ _ _ mid Hin Hheld) | apply Hheld].
Qed.

(** C1, as the code has it. Let [Fetch(k, ...)] return a handle, and let
    operations follow that leave the handle counted and its record the one
    stored for the index of [k] ([held]: ticks of the sweep, operations on
    other indices, calls of [Fetch] on the index that do not run their
    producer, calls of [unref] on the index that find at least two
    references). Then a second [Fetch(k, ...)], whatever [minTTL], [maxTTL]
    and producer it is given:
    - if the record of the handle is not expired at the time of the call,
      does not run its producer and returns a record whose value is the one
      the first [Fetch] returned;
    - if the expiry of that record is set and has passed by the time of the
      call, runs its producer once, although the handle is held, and
      returns the producer's new value when the producer returns one. *)
Theorem Fetch_again_while_held key a b (f : fetchFn) now c h mid
    a' b' (f' : fetchFn) now' :
  handle (Fetch key a b f now c) = Some h ->
  held (index c key) mid (cache_after (Fetch key a b f now c)) ->
  (isExpired (record h) now' = false ->
     producer_calls
       (Fetch key a' b' f' now' (run mid (cache_after (Fetch key a b f now c)))) = 0%nat /\
     error
       (Fetch key a' b' f' now' (run mid (cache_after (Fetch key a b f now c)))) = None /\
     exists h',
       handle
         (Fetch key a' b' f' now' (run mid (cache_after (Fetch key a b f now c)))) = Some h' /\
       Value (record h') = Value (record h)) /\
  (0 < expires (record h) < now' ->
     producer_calls
       (Fetch key a' b' f' now' (run mid (cache_after (Fetch key a b f now c)))) = 1%nat /\
     forall v', f' tt = (v', None) ->
       exists h',
         handle
           (Fetch key a' b' f' now' (run mid (cache_after (Fetch key a b f now c)))) = Some h' /\
         Value (record h') = v').
Proof.
  intros Hh Hheld.
  destruct (Fetch_stores _ _ _ _ _ _ _ Hh) as (_ & Hst & Hun & Hidx).
  assert (Hstart : in_place (index c key) (record h) (cache_after (Fetch key a b f now c))).
  { split; [exact Hun|]. exists (record h). split; [exact Hst|].
    split; [repeat split | apply (Fetch_handle_refs _ _ _ _ _ _ _ Hh)]. }
  destruct (run_in_place _ _ _ _ Hstart Hheld) as (Hun2 & r & Hre2 & Hsame & _).
  assert (Hidx2 : index (run mid (cache_after (Fetch key a b f now c))) key = index c key).
  { unfold index at 1. destruct (run_fields mid (cache_after (Fetch key a b f now c)))
      as (-> & _). exact Hidx. }
  rewrite <- Hidx2 in Hun2, Hre2.
  split.
  - intros Hx. rewrite <- (isExpired_same _ _ now' Hsame) in Hx.
    rewrite (Fetch_hit_at _ a' b' f' _ _ _ Hun2 Hre2 Hx). simpl.
    split; [reflexivity|]. split; [reflexivity|].
    eexists. split; [reflexivity|]. simpl. apply Hsame.
  - intros Hage.
    assert (Hx : isExpired r now' = true).
    { rewrite (isExpired_same _ _ now' Hsame). apply isExpired_true. right. exact Hage. }
    assert (Hg : (get (index (run mid (cache_after (Fetch key a b f now c))) key) now'
                    (run mid (cache_after (Fetch key a b f now c)))).1 = None).
    { apply (get_expired _ _ _ r); auto. }
    split.
    + rewrite producer_calls_Fetch, fetch_calls, Hg. reflexivity.
    + intros v' Hf'. rewrite (Fetch_miss_result _ _ _ _ _ _ _ Hg Hf'). simpl.
      eexists. split; reflexivity.
Qed.

End weakcache.

(** ** Concrete runs

    The cache of the tests: string values and errors, keys hashed by
    [length_hash] (so that ["key"] has index 3 under seed 0), times in
    nanoseconds. *)

(** ["key"] is fetched with a [maxTTL] of 100 at time 1000 and the handle
    is kept; at time 1200 the record is still in the reachable map with one
    reference, and a second [Fetch] of ["key"] runs its producer and
    returns the new value. *)
Lemma Fetch_hit_reachable_counterexample :
  let c := run length_hash [OpFetch "key" 0 100 (produce_value "value") 1000] (New 10 0) in
  let out := Fetch length_hash "key" 0 0 (produce_value "new value") 1200 c in
  reachable c !! index length_hash c "key" = Some (mkRecord "value"%string 0 1100 1 0) /\
  producer_calls out = 1%nat /\
  exists h, handle out = Some h /\ Value (record h) = "new value"%string /\
            Value (record h) <> "value"%string.
Proof.
  split; [vm_compute; reflexivity|]. split; [vm_compute; reflexivity|].
  eexists. split; [vm_compute; reflexivity|]. split; [reflexivity | discriminate].
Qed.

(** C2 fails on the code: a record taken back from the unreachable map
    keeps the [lastUnref] it got when it was released. ["key"] is fetched
    with a [minTTL] of 100 at time 1000, released at 2000 and fetched again
    at 2050: the record is back in the reachable map with one reference and
    [lastUnref = 2000]. With that handle still held, the grace clause of
    [isExpired] fires at time 3000, and a [Fetch] then drops the record and
    runs the producer. *)
Theorem reactivated_record_keeps_lastUnref :
  let c := run length_hash
             [OpFetch "key" 100 0 (produce_value "value") 1000;
              OpUnref 3 2000;
              OpFetch "key" 100 0 (produce_value "unused") 2050] (New 10 0) in
  reachable c !! 3 = Some (mkRecord "value"%string 100 0 1 2000) /\
  unreachable c !! 3 = None /\
  isExpired (mkRecord "value"%string 100 0 1 2000) 3000 = true /\
  producer_calls (Fetch length_hash "key" 100 0 (produce_value "other") 3000 c) = 1%nat /\
  reachable (cache_after (Fetch length_hash "key" 100 0 (produce_value "other") 3000 c)) !! 3
    = Some (mkRecord "other"%string 100 0 1 0).
Proof. repeat split; vm_compute; reflexivity. Qed.

(** [Close] twice on a new cache: the second call panics. *)
Lemma Close_then_Close_counterexample :
  exists c' : @Cache string,
    Close (New 10 0) = Returns c' /\ Close c' = Panics "close of closed channel".
Proof. eexists. split; reflexivity. Qed.

Lemma Close_then_Close_witness :
  exists c' : @Cache string,
    Close (New 10 0) = Returns c' /\
    reachable c' = reachable (New 10 0) /\ unreachable c' = unreachable (New 10 0) /\
    quit c' = Closed /\ Len c' = Len (@New string 10 0) /\
    Close c' = Panics "close of closed channel".
Proof.
  destruct (Close_then_Close (E := string) length_hash (@New string 10 0) eq_refl)
    as (c' & H1 & H2 & H3 & H4 & _ & _ & H5 & _ & H6).
  exists c'. auto 10.
Defined.

(** The record of ["key"] has passed its [maxTTL]; a [Fetch] whose
    producer fails returns the error, and the expired record is gone:
    [Len()] was 1 and is 0. *)
Lemma Fetch_error_spec_counterexample :
  let c := run length_hash [OpFetch "key" 0 100 (produce_value "value") 1000] (New 10 0) in
  let out := Fetch length_hash "key" 0 100 (produce_error "boom") 1200 c in
  error out = Some "boom"%string /\
  Len c = 1%nat /\ Len (cache_after out) = 0%nat /\
  reachable c !! 3 = Some (mkRecord "value"%string 0 1100 1 0) /\
  reachable (cache_after out) !! 3 = None.
Proof. repeat split; vm_compute; reflexivity. Qed.

Lemma Fetch_error_spec_witness :
  error
    (Fetch length_hash "key" 0 100 (produce_error "boom") 1200
       (run length_hash [OpFetch "key" 0 100 (produce_value "value") 1000] (New 10 0)))
  = Some "boom"%string /\
  handle
    (Fetch length_hash "key" 0 100 (produce_error "boom") 1200
       (run length_hash [OpFetch "key" 0 100 (produce_value "value") 1000] (New 10 0)))
  = None /\
  S (Len (cache_after
            (Fetch length_hash "key" 0 100 (produce_error "boom") 1200
               (run length_hash [OpFetch "key" 0 100 (produce_value "value") 1000]
                  (New 10 0)))))
  = Len (run length_hash [OpFetch "key" 0 100 (produce_value "value") 1000] (New 10 0)).
Proof.
  destruct (Fetch_error_spec length_hash "key" 0 100 (produce_error "boom") 1200
              (run length_hash [OpFetch "key" 0 100 (produce_value "value") 1000] (New 10 0))
              EmptyString "boom"%string)
    as (He & Hh & _ & _ & _ & _ & _ & Hpresent).
  - reflexivity.
  - intros [r [[Hu | [_ Hr]] Hx]].
    + vm_compute in Hu. discriminate.
    + vm_compute in Hr. injection Hr as <-. vm_compute in Hx. discriminate.
  - split; [exact He|]. split; [exact Hh|].
    destruct (Hpresent (mkRecord "value"%string 0 1100 1 0)) as (_ & _ & _ & Hlen).
    + right. split; vm_compute; reflexivity.
    + exact Hlen.
Defined.

Lemma Fetch_on_empty_witness :
  exists r : CacheRecord,
    handle (Fetch (E := string) length_hash "key" 5 100 (produce_value "value") 1000 (New 10 0))
      = Some (mkHandle r 3) /\
    Value r = "value"%string /\ minTTL r = 5 /\ expires r = 1100 /\
    refs r = 1 /\ lastUnref r = 0 /\
    Len (cache_after
           (Fetch (E := string) length_hash "key" 5 100 (produce_value "value") 1000 (New 10 0)))
      = 1%nat.
Proof.
  destruct (Fetch_on_empty length_hash "key" 5 100 (produce_value "value") 1000 (New 10 0)
              "value"%string eq_refl eq_refl eq_refl)
    as (r & Hh & _ & _ & Hv & Hm & Hr & Hl & _ & Hx & _ & _ & _ & Hlen).
  exists r. split; [exact Hh|]. split; [exact Hv|]. split; [exact Hm|].
  split; [apply Hx; [lia | unfold is_int64, int64_half; lia]|].
  split; [exact Hr|]. split; [exact Hl | exact Hlen].
Defined.

Lemma Fetch_hit_keeps_record_witness :
  exists r' : CacheRecord,
    reachable
      (cache_after
         (Fetch length_hash "key" 7 7 (produce_value "other") 2050
            (run length_hash
               [OpFetch "key" 100 0 (produce_value "value") 1000; OpUnref 3 2000]
               (New 10 0)))) !! 3 = Some r' /\
    minTTL r' = 100 /\ expires r' = 0 /\ Value r' = "value"%string /\ refs r' = 1.
Proof.
  destruct (Fetch_hit_keeps_record length_hash "key" 7 7 (produce_value "other") 2050
              (run length_hash
                 [OpFetch "key" 100 0 (produce_value "value") 1000; OpUnref 3 2000]
                 (New 10 0))
              (mkRecord "value"%string 100 0 0 2000))
    as (r' & Hs & _ & _ & _ & Hm & Hx & Hv & _ & _ & Hr).
  - left. vm_compute. reflexivity.
  - vm_compute. reflexivity.
  - exists r'. split; [exact Hs|]. split; [exact Hm|]. split; [exact Hx|].
    split; [exact Hv|]. apply Hr. simpl. unfold modulus64. lia.
Defined.

Lemma refcount_invariant_witness :
  (forall i r,
     reachable
       (run length_hash
          [OpFetch "key" 100 0 (produce_value "value") 1000;
           OpFetch "key" 100 0 (produce_value "value") 1500;
           OpFetch "other key" 0 0 (produce_value "more") 1600;
           OpUnref 9 1700; OpTick 1800; OpUnref 3 2000]
          (New 10 0)) !! i = Some r -> 1 <= refs r) /\
  (forall i r,
     unreachable
       (run length_hash
          [OpFetch "key" 100 0 (produce_value "value") 1000;
           OpFetch "key" 100 0 (produce_value "value") 1500;
           OpFetch "other key" 0 0 (produce_value "more") 1600;
           OpUnref 9 1700; OpTick 1800; OpUnref 3 2000]
          (New 10 0)) !! i = Some r -> refs r = 0 /\ 0 < lastUnref r).
Proof.
  apply (refcount_invariant length_hash 10 0).
  - repeat constructor.
  - reflexivity.
Defined.

Lemma gcTick_spec_witness :
  unreachable
    (gcTick 2101
       (run length_hash
          [OpFetch "key" 100 0 (produce_value "value") 1000; OpUnref 3 2000] (New 10 0))) !! 3
  = None /\
  unreachable
    (gcTick 2100
       (run length_hash
          [OpFetch "key" 100 0 (produce_value "value") 1000; OpUnref 3 2000] (New 10 0))) !! 3
  = Some (mkRecord "value"%string 100 0 0 2000).
Proof.
  split.
  - destruct (gcTick_spec 2101
                (run length_hash
                   [OpFetch "key" 100 0 (produce_value "value") 1000; OpUnref 3 2000]
                   (New 10 0))) as (_ & Hdel & _).
    apply (Hdel 3 (mkRecord "value"%string 100 0 0 2000)); vm_compute; reflexivity.
  - destruct (gcTick_spec 2100
                (run length_hash
                   [OpFetch "key" 100 0 (produce_value "value") 1000; OpUnref 3 2000]
                   (New 10 0))) as (_ & _ & Hkeep & _).
    apply (Hkeep 3 (mkRecord "value"%string 100 0 0 2000)); vm_compute; reflexivity.
Defined.


(** The three tests of [cache_test.go], with the garbage collector's work
    written as [unref] and the ticker as [gcTick]. *)

(** [TestGCEviction]. *)
Example TestGCEviction :
  Value <$> (record <$> handle
    (Fetch length_hash "key" 0 0 (produce_value "value") 1000 (New 10 0)))
    = Some "value"%string /\
  Len (run length_hash [OpFetch "key" 0 0 (produce_value "value") 1000] (New 10 0)) = 1%nat /\
  Len (run length_hash
         [OpFetch "key" 0 0 (produce_value "value") 1000; OpUnref 3 1005; OpTick 1010]
         (New 10 0)) = 0%nat.
Proof. repeat split; vm_compute; reflexivity. Qed.

(** [TestMinTTL], in milliseconds. *)
Example TestMinTTL :
  Len (run length_hash
         [OpFetch "key" 100 0 (produce_value "value") 1000; OpUnref 3 1001; OpTick 1050]
         (New 10 0)) = 1%nat /\
  producer_calls
    (Fetch length_hash "key" 100 0 (produce_error "unexpected fetch fallback") 1051
       (run length_hash
          [OpFetch "key" 100 0 (produce_value "value") 1000; OpUnref 3 1001; OpTick 1050]
          (New 10 0))) = 0%nat /\
  Len (run length_hash
         [OpFetch "key" 100 0 (produce_value "value") 1000; OpUnref 3 1001; OpTick 1050;
          OpFetch "key" 100 0 (produce_error "unexpected fetch fallback") 1051;
          OpUnref 3 1052; OpTick 1142]
         (New 10 0)) = 1%nat /\
  Len (run length_hash
         [OpFetch "key" 100 0 (produce_value "value") 1000; OpUnref 3 1001; OpTick 1050;
          OpFetch "key" 100 0 (produce_error "unexpected fetch fallback") 1051;
          OpUnref 3 1052; OpTick 1142; OpTick 1153]
         (New 10 0)) = 0%nat.
Proof. repeat split; vm_compute; reflexivity. Qed.

(** [TestMaxTTL], in milliseconds. *)
Example TestMaxTTL :
  producer_calls
    (Fetch length_hash "key" 0 0 (produce_value "new value") 1120
       (run length_hash [OpFetch "key" 0 100 (produce_value "value") 1000] (New 10 0)))
    = 1%nat /\
  Value <$> (record <$> handle
    (Fetch length_hash "key" 0 0 (produce_value "new value") 1120
       (run length_hash [OpFetch "key" 0 100 (produce_value "value") 1000] (New 10 0))))
    = Some "new value"%string /\
  Len (run length_hash
         [OpFetch "key" 0 100 (produce_value "value") 1000;
          OpFetch "key" 0 0 (produce_value "new value") 1120]
         (New 10 0)) = 1%nat.
Proof. repeat split; vm_compute; reflexivity. Qed.

Lemma isExpired_spec_witness :
  isExpired (mkRecord "value"%string 100 0 0 2000) 2101 = true /\
  isExpired (mkRecord "value"%string 100 0 0 2000) 2100 = false /\
  isExpired (mkRecord "value"%string 100 0 0 0) 2101 = false.
Proof.
  pose proof (isExpired_spec (mkRecord "value"%string 100 0 0 2000) 2101) as (_ & H & _).
  pose proof (isExpired_spec (mkRecord "value"%string 100 0 0 2000) 2100) as (_ & _ & _ & _ & E).
  pose proof (isExpired_spec (mkRecord "value"%string 100 0 0 0) 2101) as (_ & _ & N & _).
  split; [|split].
  - apply H; simpl; [unfold is_int64, int64_half; lia | left; lia].
  - apply E. simpl. lia.
  - apply N; simpl; lia.
Defined.

(** ** More concrete runs *)

Lemma Fetch_frame_witness :
  reachable
    (cache_after
       (Fetch length_hash "other key" 0 0 (produce_value "more") 1600
          (run length_hash [OpFetch "key" 100 0 (produce_value "value") 1000] (New 10 0))))
    !! 3
  = Some (mkRecord "value"%string 100 0 1 0).
Proof.
  destruct (Fetch_frame length_hash "other key" 0 0 (produce_value "more") 1600
              (run length_hash [OpFetch "key" 100 0 (produce_value "value") 1000] (New 10 0)))
    as (Hother & _).
  destruct (Hother 3) as [Hr _].
  - vm_compute. discriminate.
  - rewrite Hr. vm_compute. reflexivity.
Defined.

Lemma Fetch_Len_witness :
  Len (cache_after
         (Fetch length_hash "key" 0 0 (produce_value "new value") 1120
            (run length_hash [OpFetch "key" 0 100 (produce_value "value") 1000] (New 10 0))))
  = 1%nat.
Proof.
  rewrite (Fetch_Len length_hash 10 0 [OpFetch "key" 0 100 (produce_value "value") 1000]
             "key" 0 0 (produce_value "new value") 1120
             (mkHandle (mkRecord "new value"%string 0 0 1 0) 3)).
  - vm_compute. reflexivity.
  - vm_compute. reflexivity.
Defined.

Lemma Fetch_replaces_expired_witness :
  reachable
    (cache_after
       (Fetch length_hash "key" 5 0 (produce_value "new value") 1120
          (run length_hash [OpFetch "key" 0 100 (produce_value "value") 1000] (New 10 0))))
    !! 3
  = Some (mkRecord "new value"%string 5 0 1 0).
Proof.
  destruct (Fetch_replaces_expired length_hash "key" 5 0 (produce_value "new value") 1120
              (run length_hash [OpFetch "key" 0 100 (produce_value "value") 1000] (New 10 0))
              (mkRecord "value"%string 0 1100 1 0) "new value"%string)
    as (_ & _ & Hst & _).
  - right. split; vm_compute; reflexivity.
  - vm_compute. reflexivity.
  - reflexivity.
  - exact Hst.
Defined.

(** ["ab"] and ["cd"] have the same length, hence the same index under
    [length_hash]. *)
Lemma colliding_keys_share_record_witness :
  producer_calls
    (Fetch length_hash "cd" 0 0 (produce_value "value of cd") 1010
       (cache_after (Fetch length_hash "ab" 0 0 (produce_value "value of ab") 1000 (New 10 0))))
  = 0%nat /\
  exists h',
    handle
      (Fetch length_hash "cd" 0 0 (produce_value "value of cd") 1010
         (cache_after (Fetch length_hash "ab" 0 0 (produce_value "value of ab") 1000 (New 10 0))))
    = Some h' /\
    Value (record h') = "value of ab"%string.
Proof.
  destruct (colliding_keys_share_record length_hash "ab" "cd" 0 0
              (produce_value "value of ab") 1000 (New 10 0)
              (mkHandle (mkRecord "value of ab"%string 0 0 1 0) 2)
              0 0 (produce_value "value of cd") 1010)
    as (Hc & h' & Hh & Hv & _).
  - reflexivity.
  - vm_compute. reflexivity.
  - vm_compute. reflexivity.
  - split; [exact Hc|]. exists h'. split; [exact Hh | exact Hv].
Defined.

Lemma unref_counts_down_witness :
  reachable
    (unrefs 3 [1700; 1800]
       (run length_hash
          [OpFetch "key" 100 0 (produce_value "value") 1000;
           OpFetch "key" 100 0 (produce_value "value") 1100;
           OpFetch "key" 100 0 (produce_value "value") 1200] (New 10 0))) !! 3
  = Some (mkRecord "value"%string 100 0 1 0) /\
  unreachable
    (unrefs 3 ([1700; 1800] ++ [1900])
       (run length_hash
          [OpFetch "key" 100 0 (produce_value "value") 1000;
           OpFetch "key" 100 0 (produce_value "value") 1100;
           OpFetch "key" 100 0 (produce_value "value") 1200] (New 10 0))) !! 3
  = Some (mkRecord "value"%string 100 0 0 1900).
Proof.
  destruct (unref_counts_down 3
              (run length_hash
                 [OpFetch "key" 100 0 (produce_value "value") 1000;
                  OpFetch "key" 100 0 (produce_value "value") 1100;
                  OpFetch "key" 100 0 (produce_value "value") 1200] (New 10 0))
              (mkRecord "value"%string 100 0 3 0) [1700; 1800] 1900 [])
    as (H1 & _ & _ & H4 & _).
  - vm_compute. reflexivity.
  - simpl. unfold modulus64. lia.
  - reflexivity.
  - split; [exact H1 | exact H4].
Defined.

Lemma Fetch_then_unref_witness :
  unref 3 1300
    (cache_after
       (Fetch length_hash "key" 7 7 (produce_value "other") 1200
          (run length_hash [OpFetch "key" 100 0 (produce_value "value") 1000] (New 10 0))))
  = run length_hash [OpFetch "key" 100 0 (produce_value "value") 1000] (New 10 0).
Proof.
  apply (Fetch_then_unref length_hash "key" 7 7 (produce_value "other") 1200
           (run length_hash [OpFetch "key" 100 0 (produce_value "value") 1000] (New 10 0))
           (mkRecord "value"%string 100 0 1 0) 1300).
  - vm_compute. reflexivity.
  - vm_compute. reflexivity.
  - vm_compute. reflexivity.
  - simpl. unfold modulus64. lia.
Defined.

Lemma reactivate_then_release_witness :
  unreachable
    (unref 3 2060
       (cache_after
          (Fetch length_hash "key" 7 7 (produce_error "unexpected fetch fallback") 2050
             (run length_hash
                [OpFetch "key" 100 0 (produce_value "value") 1000; OpUnref 3 2000]
                (New 10 0))))) !! 3
  = Some (mkRecord "value"%string 100 0 0 2060).
Proof.
  destruct (reactivate_then_release length_hash "key" 7 7
              (produce_error "unexpected fetch fallback") 2050
              (run length_hash
                 [OpFetch "key" 100 0 (produce_value "value") 1000; OpUnref 3 2000]
                 (New 10 0))
              (mkRecord "value"%string 100 0 0 2000) 2060)
    as (_ & _ & Hu).
  - vm_compute. reflexivity.
  - reflexivity.
  - vm_compute. reflexivity.
  - exact Hu.
Defined.

Lemma release_then_sweep_witness :
  unreachable
    (gcTick 2100
       (unref 3 2000
          (run length_hash [OpFetch "key" 100 0 (produce_value "value") 1000] (New 10 0))))
    !! 3
  = Some (mkRecord "value"%string 100 0 0 2000) /\
  unreachable
    (gcTick 2101
       (unref 3 2000
          (run length_hash [OpFetch "key" 100 0 (produce_value "value") 1000] (New 10 0))))
    !! 3
  = None.
Proof.
  split.
  - rewrite (release_then_sweep 3
               (run length_hash [OpFetch "key" 100 0 (produce_value "value") 1000] (New 10 0))
               (mkRecord "value"%string 100 0 1 0) 2000 2100).
    + reflexivity.
    + vm_compute. reflexivity.
    + reflexivity.
    + lia.
    + simpl. unfold is_int64, int64_half. lia.
  - rewrite (release_then_sweep 3
               (run length_hash [OpFetch "key" 100 0 (produce_value "value") 1000] (New 10 0))
               (mkRecord "value"%string 100 0 1 0) 2000 2101).
    + reflexivity.
    + vm_compute. reflexivity.
    + reflexivity.
    + lia.
    + simpl. unfold is_int64, int64_half. lia.
Defined.

(** Five handles are out on the record of ["key"] when it expires; the
    record that replaces it goes to the unreachable map at the first
    [unref]. *)
Lemma release_after_replacement_witness :
  unreachable
    (unref 3 1300
       (cache_after
          (Fetch length_hash "key" 0 0 (produce_value "new value") 1200
             (mkCache 10 {[ 3 := mkRecord "value"%string 0 1100 5 0 ]} ∅ 0 Open)))) !! 3
  = Some (mkRecord "new value"%string 0 0 0 1300).
Proof.
  destruct (release_after_replacement length_hash "key" 0 0 (produce_value "new value") 1200
              (mkCache 10 {[ 3 := mkRecord "value"%string 0 1100 5 0 ]} ∅ 0 Open)
              (mkRecord "value"%string 0 1100 5 0) "new value"%string 1300)
    as (_ & Hu).
  - vm_compute. reflexivity.
  - vm_compute. reflexivity.
  - vm_compute. reflexivity.
  - reflexivity.
  - exact Hu.
Defined.

Lemma isExpired_monotone_witness :
  isExpired (mkRecord "value"%string 100 0 0 2000) 5000 = true.
Proof.
  destruct (isExpired_monotone (mkRecord "value"%string 100 0 0 2000) 2101 5000) as (Hup & _).
  - lia.
  - apply Hup. vm_compute. reflexivity.
Defined.

Lemma gcTick_later_witness :
  gcTick 2101
    (gcTick 2050
       (run length_hash
          [OpFetch "key" 100 0 (produce_value "value") 1000; OpUnref 3 2000] (New 10 0)))
  = gcTick 2101
      (run length_hash
         [OpFetch "key" 100 0 (produce_value "value") 1000; OpUnref 3 2000] (New 10 0)).
Proof.
  destruct (gcTick_later 2050 2101
              (run length_hash
                 [OpFetch "key" 100 0 (produce_value "value") 1000; OpUnref 3 2000]
                 (New 10 0))) as (H & _).
  - lia.
  - exact H.
Defined.

Lemma unref_frame_witness :
  unref 7 1300
    (run length_hash [OpFetch "key" 100 0 (produce_value "value") 1000] (New 10 0))
  = run length_hash [OpFetch "key" 100 0 (produce_value "value") 1000] (New 10 0).
Proof.
  destruct (unref_frame 7 1300
              (run length_hash [OpFetch "key" 100 0 (produce_value "value") 1000] (New 10 0)))
    as (_ & _ & Habsent).
  apply Habsent. vm_compute. reflexivity.
Defined.

(** A [minTTL] of [math.MaxInt64], released in the year 2023. *)
Lemma grace_overflow_expires_witness :
  isExpired (mkRecord "value"%string (2 ^ 63 - 1) 0 0 1700000000000000000)
    1700000000000000001 = true.
Proof.
  destruct (grace_overflow_expires
              (mkRecord "value"%string (2 ^ 63 - 1) 0 0 1700000000000000000)
              1700000000000000001) as (_ & H).
  - simpl. lia.
  - simpl. unfold is_int64, int64_half. lia.
  - simpl. unfold is_int64, int64_half. lia.
  - simpl. unfold int64_half. lia.
  - lia.
  - exact H.
Defined.

Lemma fresh_lifetime_witness :
  isExpired (fresh "value"%string 0 100 1000) 1100 = false /\
  isExpired (fresh "value"%string 0 100 1000) 1101 = true.
Proof.
  split.
  - rewrite (fresh_lifetime "value"%string 0 100 1000 1100);
      [reflexivity | lia | unfold is_int64, int64_half; lia].
  - rewrite (fresh_lifetime "value"%string 0 100 1000 1101);
      [reflexivity | lia | unfold is_int64, int64_half; lia].
Defined.

(** ** The second Fetch, and the two overflows *)

(** ["key"] is fetched at time 1000 with a [maxTTL] of 100; then the sweep
    ticks, another key is fetched, ["key"] is fetched again (a hit) and one
    of its two handles is released. A [Fetch] at time 1050 returns the
    first value without running its producer. *)
Lemma Fetch_again_while_held_witness :
  producer_calls
    (Fetch length_hash "key" 7 7 (produce_value "other") 1050
       (run length_hash
          [OpTick 1010;
           OpFetch "other key" 0 0 (produce_value "more") 1015;
           OpFetch "key" 5 5 (produce_error "unexpected fetch fallback") 1020;
           OpUnref 3 1030]
          (cache_after
             (Fetch length_hash "key" 0 100 (produce_value "value") 1000 (New 10 0)))))
  = 0%nat /\
  exists h',
    handle
      (Fetch length_hash "key" 7 7 (produce_value "other") 1050
         (run length_hash
            [OpTick 1010;
             OpFetch "other key" 0 0 (produce_value "more") 1015;
             OpFetch "key" 5 5 (produce_error "unexpected fetch fallback") 1020;
             OpUnref 3 1030]
            (cache_after
               (Fetch length_hash "key" 0 100 (produce_value "value") 1000 (New 10 0)))))
    = Some h' /\
    Value (record h') = "value"%string.
Proof.
  destruct (Fetch_again_while_held length_hash "key" 0 100 (produce_value "value") 1000
              (New 10 0) (mkHandle (mkRecord "value"%string 0 1100 1 0) 3)
              [OpTick 1010;
               OpFetch "other key" 0 0 (produce_value "more") 1015;
               OpFetch "key" 5 5 (produce_error "unexpected fetch fallback") 1020;
               OpUnref 3 1030]
              7 7 (produce_value "other") 1050) as (Hhit & _).
  - vm_compute. reflexivity.
  - simpl. split; [exact I|]. split.
    + intros Hi. vm_compute in Hi. discriminate.
    + split; [intros _; vm_compute; reflexivity|].
      split; [|exact I]. intros _. eexists. split; [vm_compute; reflexivity|].
      simpl. lia.
  - destruct Hhit as (Hc & _ & h' & Hh' & Hv); [vm_compute; reflexivity|].
    split; [exact Hc|]. exists h'. split; [exact Hh' | exact Hv].
Defined.

(** C7 fails on the code where the sum overflows. A record with a
    [minTTL] of [math.MaxInt64] is released at time 1700000000000000000:
    [lastUnref + minTTL] is far ahead of the next nanosecond and no expiry
    is set, so neither clause of the claim holds, but the [int64] sum of
    the code has wrapped around to a negative number and [isExpired]
    returns true. *)
Theorem isExpired_grace_overflow :
  isExpired (mkRecord "value"%string (2 ^ 63 - 1) 0 0 1700000000000000000)
    1700000000000000001 = true /\
  ~ ((0 < lastUnref (mkRecord "value"%string (2 ^ 63 - 1) 0 0 1700000000000000000) /\
      lastUnref (mkRecord "value"%string (2 ^ 63 - 1) 0 0 1700000000000000000)
      + minTTL (mkRecord "value"%string (2 ^ 63 - 1) 0 0 1700000000000000000)
      < 1700000000000000001) \/
     (0 < expires (mkRecord "value"%string (2 ^ 63 - 1) 0 0 1700000000000000000) /\
      expires (mkRecord "value"%string (2 ^ 63 - 1) 0 0 1700000000000000000)
      < 1700000000000000001)) /\
  unreachable
    (gcTick 1700000000000000001
       (run length_hash
          [OpFetch "key" (2 ^ 63 - 1) 0 (produce_value "value") 1600000000000000000;
           OpUnref 3 1700000000000000000] (New 10 0))) !! 3 = None.
Proof.
  split; [vm_compute; reflexivity|]. split; [|vm_compute; reflexivity].
  simpl. intros [[_ H] | [H _]]; lia.
Qed.

